(** * puzzledistext: the layers of the 24-puzzle through bucket files

    A shallow embedding of [cmd/puzzledistext.c] (the expansion, the
    distribution into bucket files and the coalescing of one
    breadth-first layer, and the layer-counting driver) and of the
    inline accessors of [pdb.h].

    Conventions of the embedding.

    - A [FILE] is a stream with its position: the records of the file
      behind the position, the records ahead of it, and the error
      indicator.  [fread] takes the record at the position, [fwrite]
      puts a record there, and both move the position on.  The source
      calls neither [fflush] nor a positioning function on a [FILE],
      so what is written through a stream stays behind its position.
    - The C library calls [fopen], [fread], [fwrite], [fclose] and
      [remove] can fail.  Which calls fail is decided by a schedule
      carried in the environment ([faults]); every call is logged in
      [events] together with its success or failure.
    - [exit] ends the run with outcome [Exited]; what the C standard
      leaves undefined (an array access out of bounds, a shift by the
      width of [int], an [int] that overflows, a library call on a
      pointer that is not a stream) ends it with [Undefined].
    - [compact.h] and [puzzle.h] (the record layout, the codec and the
      move tables) are outside the two files embedded here.  The
      functions of [puzzledistext.c] are embedded over them as section
      variables; [Module Grid5] instantiates them with a 5x5 board to
      run the code on concrete layers. *)

From Stdlib Require Import ZArith List String Ascii Lia Bool.
From Stdlib Require Import Strings.String Numbers.DecimalString.
From stdpp Require Import base list.
Import ListNotations.

Local Open Scope string_scope.
Local Open Scope list_scope.
Local Open Scope nat_scope.

(** ** Records, streams and the environment *)

(** [struct compact_puzzle]: two 64-bit words.  Only bitwise
    operations and comparisons are applied to them, so no wrap-around
    arises. *)
Record compact_puzzle : Type := CP { lo : Z; hi : Z }.

(** A stream on a file of records: the records behind the position,
    the records ahead of it, and the error indicator. *)
Record FILE : Type := mkFILE {
  behind : list compact_puzzle;
  unread : list compact_puzzle;
  ferror : bool
}.

(** The stream on a new file. *)
Definition empty_FILE : FILE := mkFILE [] [] false.

(** A stream at the start of a file that holds [l], and a stream at
    the end of one. *)
Definition FILE_of (l : list compact_puzzle) : FILE := mkFILE [] l false.
Definition FILE_after (l : list compact_puzzle) : FILE := mkFILE l [] false.

(** The records of the file of a stream. *)
Definition records (f : FILE) : list compact_puzzle := behind f ++ unread f.

(** An array of streams with the given contents. *)
Definition files_of (bs : list (list compact_puzzle)) : list FILE := map FILE_of bs.

Inductive io_op : Type :=
| Fopen (path : string)
| Fread
| Fwrite
| Fclose
| Remove (path : string).

(** A line of standard output of the driver: the configuration count
    header, or the report of one layer (index and size; the quotient
    printed after them is a floating-point rendering of the size). *)
Inductive out_line : Type :=
| ConfCount
| Layer (i : Z) (len : nat).

Record env : Type := mkEnv {
  faults : list bool;
  events : list (io_op * bool);
  stderr : list string;
  stdout : list out_line
}.

Definition quiet_env : env := mkEnv [] [] [] [].

Inductive outcome (A : Type) : Type :=
| Ret (a : A) (e : env)
| Exited (status : Z) (e : env)
| Undefined
| NoFuel.

Arguments Ret {A} a e.
Arguments Exited {A} status e.
Arguments Undefined {A}.
Arguments NoFuel {A}.

Definition M (A : Type) : Type := env -> outcome A.

Definition ret {A} (a : A) : M A := fun e => Ret a e.

Definition bind {A B} (m : M A) (k : A -> M B) : M B :=
  fun e =>
    match m e with
    | Ret a e' => k a e'
    | Exited s e' => Exited s e'
    | Undefined => Undefined
    | NoFuel => NoFuel
    end.

Notation "'let*' x ':=' c 'in' k" := (bind c (fun x => k))
  (at level 10, x name, c at level 100, k at level 200).
Notation "'let*' ' p ':=' c 'in' k" := (bind c (fun x => match x with p => k end))
  (at level 10, p pattern, c at level 100, k at level 200).

Definition undefined {A} : M A := fun _ => Undefined.

Definition EXIT_FAILURE : Z := 1.
Definition EOF : Z := -1.
Definition INT_MAX : Z := 2147483647.

(** ** The C library *)

(** One library call that can fail: the head of the schedule says
    whether it does; a schedule that has run out means success. *)
Definition syscall (op : io_op) : M bool :=
  fun e =>
    let failed := hd false (faults e) in
    Ret failed (mkEnv (tl (faults e)) (events e ++ [(op, failed)])
                  (stderr e) (stdout e)).

(** [fopen(path, "w+b")]: a fresh empty stream, or [NULL]. *)
Definition fopen (path : string) : M (option FILE) :=
  let* failed := syscall (Fopen path) in
  ret (if failed then None else Some empty_FILE).

(** [fread(cp, sizeof *cp, 1, f)]: the record at the position when
    the count is 1, the position moving past it; on a failure the
    count is 0 and the error indicator is set, at the end of the file
    the count is 0.  A stream that has only been written stands at
    the end of its file: the read that follows the writes without a
    call of [fflush] or of a positioning function between them (the C
    standard asks for one) is taken where the writes left the
    position, as the C libraries do it. *)
Definition fread (f : FILE) : M (option compact_puzzle * FILE) :=
  let* failed := syscall Fread in
  if failed then ret (None, mkFILE (behind f) (unread f) true)
  else match unread f with
       | [] => ret (None, f)
       | cp :: rest => ret (Some cp, mkFILE (behind f ++ [cp]) rest (ferror f))
       end.

(** [fwrite(cp, sizeof *cp, 1, f)]: the count written.  The record
    goes to the position, over the record that was there if there
    was one (the streams are opened in the mode ["w+b"], not for
    appending), and the position moves past it. *)
Definition fwrite (f : FILE) (cp : compact_puzzle) : M (nat * FILE) :=
  let* failed := syscall Fwrite in
  if failed then ret (0, f)
  else ret (1, mkFILE (behind f ++ [cp]) (tl (unread f)) (ferror f)).

Definition fclose (f : FILE) : M Z :=
  let* failed := syscall Fclose in
  ret (if failed then EOF else 0%Z).

Definition remove (path : string) : M Z :=
  let* failed := syscall (Remove path) in
  ret (if failed then (-1)%Z else 0%Z).

Definition perror (s : string) : M unit :=
  fun e => Ret tt (mkEnv (faults e) (events e) (stderr e ++ [s]) (stdout e)).

Definition exit {A} (status : Z) : M A := fun e => Exited status e.

(** ** getpuzzle, putpuzzle *)

(** [getpuzzle]: [Some cp] stands for the return value 0 with the
    record stored through [cp], [None] for [EOF]. *)
Definition getpuzzle (cpfile : FILE) : M (option compact_puzzle * FILE) :=
  let* '(r, cpfile') := fread cpfile in
  match r with
  | Some cp => ret (Some cp, cpfile')
  | None =>
      if ferror cpfile'
      then let* _ := perror "getpuzzle" in exit EXIT_FAILURE
      else ret (None, cpfile')
  end.

Definition putpuzzle (cpfile : FILE) (cp : compact_puzzle) : M FILE :=
  let* '(count, cpfile') := fwrite cpfile cp in
  if Nat.eqb count 1 then ret cpfile'
  else let* _ := perror "putpuzzle" in exit EXIT_FAILURE.

(** The loop [while (getpuzzle(&cp, infile) != EOF) body], with the
    state the body works on passed along.  Every turn takes a record
    off [infile], so the callers start it with one more unit of fuel
    than [infile] has records. *)
Fixpoint while_getpuzzle {St : Type} (fuel : nat)
    (body : compact_puzzle -> St -> M St) (infile : FILE) (s : St)
    : M (St * FILE) :=
  match fuel with
  | O => fun _ => NoFuel
  | S n =>
      let* '(r, infile') := getpuzzle infile in
      match r with
      | None => ret (s, infile')
      | Some cp =>
          let* s' := body cp s in
          while_getpuzzle n body infile' s'
      end
  end.

Definition fuel_for (infile : FILE) : nat := S (length (unread infile)).

(** [for (loc = 0; loc < n; loc++) body], as a walk over the indices. *)
Fixpoint for_each {St : Type} (locs : list nat) (body : nat -> St -> M St)
    (s : St) : M St :=
  match locs with
  | [] => ret s
  | loc :: rest => let* s' := body loc s in for_each rest body s'
  end.

(** Modelled from the spec: [TILE_COUNT] of [puzzle.h], the number of
    tiles of the 5x5 board, the blank included. *)
Definition TILE_COUNT : nat := 25.

(** [putpuzzle(outfiles + k, cp)], as [expandpuzzle] and [distribute]
    call it.  [outfiles] is an array of [FILE *], so [outfiles + k] is
    the address of its slot [k], a [FILE **], and not the stream
    [outfiles[k]] kept in the slot.  [putpuzzle] takes it for its
    [FILE *] parameter and hands it to [fwrite]: a library call on a
    pointer that is not a stream, for every [k] and whatever streams
    the array holds.  No record reaches a stream of the array. *)
Definition putpuzzle_at (outfiles : list FILE) (k : nat)
    (cp : compact_puzzle) : M (list FILE) :=
  undefined.

(** [PATH_MAX] of [limits.h], with its value on Linux. *)
Definition PATH_MAX : nat := 4096.

(** [snprintf(buf, size, ...)] stores at most [size - 1] characters
    of what the format produces, the first ones. *)
Definition snprintf (size : nat) (s : string) : string :=
  String.substring 0 (size - 1) s.

(** The conversions [%02d] and [%02zu] of a number that is not
    negative: at least two digits. *)
Definition fmt02 (n : nat) : string :=
  let s := NilZero.string_of_uint (Nat.to_uint n) in
  if Nat.ltb (String.length s) 2 then "0" ++ s else s.

(** [snprintf(pathbuf, PATH_MAX, "%s-%02d-%02zu.rdx", dir, round, i)]. *)
Definition rdxpath (dir : string) (round i : nat) : string :=
  snprintf PATH_MAX (dir ++ "-" ++ fmt02 round ++ "-" ++ fmt02 i ++ ".rdx").

Definition makerdxfiles (dir : string) (round : nat) : M (list FILE) :=
  for_each (seq 0 TILE_COUNT)
    (fun i files =>
       let pathbuf := rdxpath dir round i in
       let* f := fopen pathbuf in
       match f with
       | None => let* _ := perror pathbuf in exit EXIT_FAILURE
       | Some f => ret (files ++ [f])
       end)
    [].

Definition removerdxfile (dir : string) (round loc : nat) : M unit :=
  let pathbuf := rdxpath dir round loc in
  let* _ := remove pathbuf in
  ret tt.

Section Codec.

(** What [compact.h] and [puzzle.h] declare. *)
Variable MOVE_MASK : Z.
Variable puzzle : Type.
Variable tiles : puzzle -> nat -> nat.
Variable unpack_puzzle : compact_puzzle -> puzzle.
Variable pack_puzzle_masked : puzzle -> nat -> compact_puzzle.
Variable move_mask : compact_puzzle -> Z.
Variable zero_location : puzzle -> nat.
Variable move_count : nat -> nat.
Variable get_moves : nat -> list nat.
Variable move : puzzle -> nat -> puzzle.

(** The test of [coalesce]:
    [a.hi == b.hi && ((a.lo ^ b.lo) & ~MOVE_MASK) == 0].  [MOVE_MASK]
    is an [int] constant, so its complement extends with one bits
    over the whole 64-bit word, as [Z.lnot] does. *)
Definition same_configuration (a b : compact_puzzle) : bool :=
  ((hi a =? hi b)%Z
   && (Z.land (Z.lxor (lo a) (lo b)) (Z.lnot MOVE_MASK) =? 0)%Z)%bool.

(** The mask field of a record: the bits of [lo] under [MOVE_MASK]. *)
Definition mask_bits (a : compact_puzzle) : Z := Z.land (lo a) MOVE_MASK.

(** One turn of the loop of [coalesce] on the record [b] just read. *)
Definition coalesce_step (b : compact_puzzle)
    (s : compact_puzzle * FILE) : M (compact_puzzle * FILE) :=
  let '(a, outfile) := s in
  if same_configuration a b
  then ret (CP (Z.lor (lo a) (lo b)) (hi a), outfile)
  else let* outfile' := putpuzzle outfile a in ret (b, outfile').

Definition coalesce (outfile infile : FILE) : M (FILE * FILE) :=
  let* '(r, infile1) := getpuzzle infile in
  match r with
  | None => ret (outfile, infile1)
  | Some a =>
      let* '((a', outfile1), infile2) :=
        while_getpuzzle (fuel_for infile1) coalesce_step infile1 (a, outfile) in
      let* outfile2 := putpuzzle outfile1 a' in
      ret (outfile2, infile2)
  end.

(** One turn of the loop of [expandpuzzle] for move [i]; the state
    is the puzzle [p] being moved back and forth and the buckets.
    [1 << i] is a shift of an [int], undefined from 31 bits on. *)
Definition expand_step (movemask : Z) (zloc : nat) (moves : list nat)
    (i : nat) (s : puzzle * list FILE) : M (puzzle * list FILE) :=
  let '(p, outfiles) := s in
  if 31 <=? i then undefined
  else if (Z.land movemask (Z.shiftl 1 (Z.of_nat i)) =? 0)%Z
  then
    let p1 := move p (nth i moves 0) in
    let ncp := pack_puzzle_masked p1 zloc in
    let* outfiles' := putpuzzle_at outfiles (tiles p1 (TILE_COUNT - 1)) ncp in
    ret (move p1 zloc, outfiles')
  else ret (p, outfiles).

(** [expandpuzzle], up to the end of its loop.  The statements that
    follow the loop in the source name identifiers that are declared
    nowhere ([j], [cpfile]) and have no counterpart here. *)
Definition expandpuzzle (outfiles : list FILE) (cp : compact_puzzle)
    : M (list FILE) :=
  let movemask := move_mask cp in
  let p := unpack_puzzle cp in
  let zloc := zero_location p in
  let n_move := move_count zloc in
  let moves := get_moves zloc in
  let* '(_, outfiles') :=
    for_each (seq 0 n_move) (expand_step movemask zloc moves) (p, outfiles) in
  ret outfiles'.

Definition distribute (outfiles : list FILE) (infile : FILE) (t : nat)
    : M (list FILE * FILE) :=
  while_getpuzzle (fuel_for infile)
    (fun cp outfiles =>
       let p := unpack_puzzle cp in
       putpuzzle_at outfiles (tiles p t) cp)
    infile outfiles.

(** The body of the loop over [loc] inside a round of [expround]. *)
Definition drain_step (dir : string) (round : nat) (oldrdxfiles : list FILE)
    (loc : nat) (rdxfiles : list FILE) : M (list FILE) :=
  match oldrdxfiles !! loc with
  | None => undefined
  | Some old =>
      let* '(rdxfiles', old') := distribute rdxfiles old (round - 1) in
      let* _ := fclose old' in
      let* _ := removerdxfile dir round loc in
      ret rdxfiles'
  end.

(** [for (; round >= 1; round--)] of [expround].  The assignment
    [oldrdxfiles = rdxfiles] copies the array of streams. *)
Fixpoint rounds (dir : string) (round : nat) (rdxfiles : list FILE)
    : M (list FILE) :=
  match round with
  | O => ret rdxfiles
  | S r =>
      let oldrdxfiles := rdxfiles in
      let* fresh := makerdxfiles dir (round - 1) in
      let* rdxfiles' :=
        for_each (seq 0 TILE_COUNT) (drain_step dir round oldrdxfiles) fresh in
      rounds dir r rdxfiles'
  end.

(** The first two phases of [expround]: the expansion of [infile]
    into the buckets of round [TILE_COUNT - 2], and the rounds of
    redistribution.  The result is the last set of buckets. *)
Definition expround_sort (infile : FILE) (dir : string)
    : M (list FILE * FILE) :=
  let round := TILE_COUNT - 2 in
  let* rdxfiles := makerdxfiles dir round in
  let* '(rdxfiles1, infile') :=
    while_getpuzzle (fuel_for infile)
      (fun cp rdxfiles => expandpuzzle rdxfiles cp) infile rdxfiles in
  let* rdxfiles2 := rounds dir round rdxfiles1 in
  ret (rdxfiles2, infile').

(** The body of the last loop of [expround]; [round] is 0 there. *)
Definition coalesce_step_loc (dir : string) (rdxfiles : list FILE)
    (loc : nat) (outfile : FILE) : M FILE :=
  match rdxfiles !! loc with
  | None => undefined
  | Some f =>
      let* '(outfile', f') := coalesce outfile f in
      let* _ := fclose f' in
      let* _ := removerdxfile dir 0 loc in
      ret outfile'
  end.

Definition expround (outfile infile : FILE) (dir : string)
    : M (FILE * FILE) :=
  let* '(rdxfiles, infile') := expround_sort infile dir in
  let* outfile' :=
    for_each (seq 0 TILE_COUNT) (coalesce_step_loc dir rdxfiles) outfile in
  ret (outfile', infile').

(** *** The notions the statements are about *)

(** The part of a record that names its configuration. *)
Definition configuration (a : compact_puzzle) : Z * Z :=
  (hi a, Z.land (lo a) (Z.lnot MOVE_MASK)).

(** The pass of the coalescer on the records of a stream: hold a
    current record [a]; a record [b] of the same configuration is
    merged into it ([a.lo |= b.lo]), another one makes [a] go out
    and takes its place; the last [a] goes out at the end. *)
Definition merge (a b : compact_puzzle) : compact_puzzle :=
  CP (Z.lor (lo a) (lo b)) (hi a).

Fixpoint coalesce_from (a : compact_puzzle) (rest : list compact_puzzle)
    : list compact_puzzle :=
  match rest with
  | [] => [a]
  | b :: rest' =>
      if same_configuration a b then coalesce_from (merge a b) rest'
      else a :: coalesce_from b rest'
  end.

(** What a turn of the loop of [coalesce] makes of the current record
    and the output stream. *)
Definition coalesce_turn (s : compact_puzzle * FILE) (b : compact_puzzle)
    : compact_puzzle * FILE :=
  let '(a, f) := s in
  if same_configuration a b then (merge a b, f) else (b, FILE_after (behind f ++ [a])).

Definition coalesce_spec (input : list compact_puzzle) : list compact_puzzle :=
  match input with
  | [] => []
  | a :: rest => coalesce_from a rest
  end.

(** What [coalesce] writes to a new file when it reads [input] and
    no library call fails. *)
Definition coalesce_out (input : list compact_puzzle)
    : option (list compact_puzzle) :=
  match coalesce empty_FILE (FILE_of input) quiet_env with
  | Ret (outfile, _) _ => Some (records outfile)
  | _ => None
  end.

(** Records of one configuration sit next to each other. *)
Definition configurations_adjacent (l : list compact_puzzle) : Prop :=
  forall l1 x l2 y l3,
    l = l1 ++ x :: l2 ++ y :: l3 ->
    same_configuration x y = true ->
    Forall (fun z => same_configuration x z = true) l2.

(** A test for it: once the stream has left the configuration of
    [x], it does not come back to it. *)
Fixpoint leaves_for_good (x : compact_puzzle) (l : list compact_puzzle) : bool :=
  match l with
  | [] => true
  | z :: l' =>
      if same_configuration x z then leaves_for_good x l'
      else forallb (fun w => negb (same_configuration x w)) l'
  end.

Fixpoint configurations_adjacentb (l : list compact_puzzle) : bool :=
  match l with
  | [] => true
  | x :: l' => (leaves_for_good x l' && configurations_adjacentb l')%bool
  end.

(** The mask bits of a group of records or-ed together. *)
Definition mask_union (g : list compact_puzzle) : Z :=
  fold_right Z.lor 0%Z (map mask_bits g).

(** [output] has exactly one record for each configuration of
    [input], and no other record. *)
Definition one_per_configuration (input output : list compact_puzzle) : Prop :=
  (forall x, In x input ->
     length (List.filter (same_configuration x) output) = 1)
  /\ (forall y, In y output ->
       exists x, In x input /\ same_configuration x y = true).

(** The radix digit [t] of a record: where its tile [t] lies. *)
Definition digit (t : nat) (cp : compact_puzzle) : nat :=
  tiles (unpack_puzzle cp) t.

(** The moves [expandpuzzle] does not skip. *)
Definition unmasked (movemask : Z) (i : nat) : bool :=
  (Z.land movemask (Z.shiftl 1 (Z.of_nat i)) =? 0)%Z.

Definition open_moves (cp : compact_puzzle) : list nat :=
  List.filter (unmasked (move_mask cp))
    (seq 0 (move_count (zero_location (unpack_puzzle cp)))).

(** What [expround] writes to a new layer file when it reads
    [layer] and no library call fails. *)
Definition expround_out (layer : list compact_puzzle) (dir : string)
    : option (list compact_puzzle) :=
  match expround empty_FILE (FILE_of layer) dir quiet_env with
  | Ret (outfile, _) _ => Some (records outfile)
  | _ => None
  end.

End Codec.

(** ** The layer driver *)

Section Driver.

(** The collaborators of [main] that other files provide: the
    in-memory round, the sampler, the packed solved puzzle and the
    number parsers of the C library. *)
Variable cps_round : list compact_puzzle -> list compact_puzzle -> list compact_puzzle.
Variable do_sampling : string -> list compact_puzzle -> Z -> Z -> list compact_puzzle.
Variable solved_cp : compact_puzzle.
Variable atoi : string -> Z.
Variable strtoull : string -> Z.

(** The variables the option loop of [main] assigns. *)
Record options : Type := mkOptions {
  samplefile : option string;
  limit : Z;
  n_samples : Z;
  random_seed : option Z
}.

Definition default_options : options :=
  mkOptions None INT_MAX (Z.shiftl 1 20) None.

Definition usage_line (argv0 : string) : string :=
  "Usage: " ++ argv0
    ++ " [-l limit] [-f filename] [-n n_samples] [-s seed] shuffledir".

Definition fprintf_stderr (s : string) : M unit :=
  fun e => Ret tt (mkEnv (faults e) (events e) (stderr e ++ [s]) (stdout e)).

Definition usage {A} (argv0 : string) : M A :=
  let* _ := fprintf_stderr (usage_line argv0) in exit EXIT_FAILURE.

(** The outcome of [usage]. *)
Definition usage_exit (argv0 : string) (e : env) : outcome options :=
  Exited EXIT_FAILURE
    (mkEnv (faults e) (events e) (stderr e ++ [usage_line argv0]) (stdout e)).

Definition printf (l : out_line) : M unit :=
  fun e => Ret tt (mkEnv (faults e) (events e) (stderr e) (stdout e ++ [l])).

(** The [switch] on one result of [getopt]: the option character
    and [optarg]. *)
Definition option_step (argv0 : string) (o : ascii * string) (opts : options)
    : M options :=
  let '(optchar, optarg) := o in
  if Ascii.eqb optchar "f" then
    ret (mkOptions (Some optarg) (limit opts) (n_samples opts) (random_seed opts))
  else if Ascii.eqb optchar "l" then
    ret (mkOptions (samplefile opts) (atoi optarg) (n_samples opts) (random_seed opts))
  else if Ascii.eqb optchar "n" then
    ret (mkOptions (samplefile opts) (limit opts) (strtoull optarg) (random_seed opts))
  else if Ascii.eqb optchar "s" then
    ret (mkOptions (samplefile opts) (limit opts) (n_samples opts) (Some (strtoull optarg)))
  else usage argv0.

Fixpoint option_loop (argv0 : string) (got : list (ascii * string))
    (opts : options) : M options :=
  match got with
  | [] => ret opts
  | o :: rest =>
      let* opts' := option_step argv0 o opts in
      option_loop argv0 rest opts'
  end.

Definition sample (opts : options) (cps : list compact_puzzle) (i : Z)
    : list compact_puzzle :=
  match samplefile opts with
  | Some f => do_sampling f cps i (n_samples opts)
  | None => cps
  end.

(** [for (i = 1; i <= limit; i++)] of [main].  [i] is an [int]:
    incrementing it at [INT_MAX] is undefined.  [fflush], [cps_init]
    and [cps_free] leave what is modelled as it is. *)
Fixpoint layer_loop (fuel : nat) (opts : options) (i : Z)
    (new_cps : list compact_puzzle) : M unit :=
  match fuel with
  | O => fun _ => NoFuel
  | S n =>
      if (i <=? limit opts)%Z then
        let old_cps := new_cps in
        let new_cps1 := cps_round [] old_cps in
        let new_cps2 := sample opts new_cps1 i in
        let* _ := printf (Layer i (length new_cps2)) in
        if (i =? INT_MAX)%Z then undefined
        else layer_loop n opts (i + 1)%Z new_cps2
      else ret tt
  end.

(** [main].  [got] is the sequence of results of the calls of
    [getopt] before it returns -1, [operands] the arguments from
    [argv[optind]] on.  The value returned is the exit status. *)
Definition main (fuel : nat) (argv0 : string) (got : list (ascii * string))
    (operands : list string) : M Z :=
  let* opts := option_loop argv0 got default_options in
  let* _ := (if Nat.eqb (length operands) 1 then ret tt else usage argv0) in
  let new_cps := [] ++ [solved_cp] in
  let new_cps' := sample opts new_cps 0%Z in
  let* _ := printf ConfCount in
  let* _ := printf (Layer 0 (length new_cps')) in
  let* _ := layer_loop fuel opts 1%Z new_cps' in
  ret 0%Z.

(** *** The notions the statements are about *)

(** The option characters of ["f:l:n:s:"]. *)
Definition known_option (o : ascii * string) : bool :=
  (Ascii.eqb (fst o) "f" || Ascii.eqb (fst o) "l"
   || Ascii.eqb (fst o) "n" || Ascii.eqb (fst o) "s")%bool.

(** The assignment the [switch] makes for a known option. *)
Definition set_option (opts : options) (o : ascii * string) : options :=
  if Ascii.eqb (fst o) "f" then
    mkOptions (Some (snd o)) (limit opts) (n_samples opts) (random_seed opts)
  else if Ascii.eqb (fst o) "l" then
    mkOptions (samplefile opts) (atoi (snd o)) (n_samples opts) (random_seed opts)
  else if Ascii.eqb (fst o) "n" then
    mkOptions (samplefile opts) (limit opts) (strtoull (snd o)) (random_seed opts)
  else if Ascii.eqb (fst o) "s" then
    mkOptions (samplefile opts) (limit opts) (n_samples opts) (Some (strtoull (snd o)))
  else opts.

Definition parsed (got : list (ascii * string)) : options :=
  fold_left set_option got default_options.

(** The command line is one the option loop and the operand count
    accept. *)
Definition well_formed_command (got : list (ascii * string))
    (operands : list string) : bool :=
  (forallb known_option got && Nat.eqb (length operands) 1)%bool.

(** The reports of the layers [i], [i + 1], ..., [i + n - 1], the
    layer before them being [cps]. *)
Fixpoint layer_lines (opts : options) (n : nat) (i : Z)
    (cps : list compact_puzzle) : list out_line :=
  match n with
  | O => []
  | S n' =>
      let new_cps := sample opts (cps_round [] cps) i in
      Layer i (length new_cps) :: layer_lines opts n' (i + 1)%Z new_cps
  end.

(** No report follows the report of an empty layer. *)
Definition stops_at_empty_layer (out : list out_line) : Prop :=
  forall pre i post, out = pre ++ Layer i 0 :: post -> post = [].

End Driver.

(** ** The pattern database accessors of pdb.h *)

Module PDB.

Definition UNREACHED : Z := 255.

(** The members of [struct index] and [struct index_aux] that the
    accessors read. *)
Record index : Type := mkIndex { maprank : nat; pidx : nat; eqidx : nat }.
Record index_table : Type := mkIndexTable { n_eqclass : nat }.

Section Tileset.

(** What [tileset.h] declares. *)
Variable tileset : Type.
Variable tileset_has : tileset -> nat -> bool.
Variable ZERO_TILE : nat.

Record index_aux : Type := mkIndexAux { ts : tileset; idxt : list index_table }.

(** [tables[m]] is the array of bytes of map rank [m]. *)
Record patterndb : Type := mkPatterndb { aux : index_aux; tables : list (list Z) }.

(** A pointer into the tables: the table and the offset in it. *)
Definition pdb_entry_pointer (pdb : patterndb) (idx : index)
    : option (nat * nat) :=
  if tileset_has (ts (aux pdb)) ZERO_TILE
  then match idxt (aux pdb) !! maprank idx with
       | Some it => Some (maprank idx, pidx idx * n_eqclass it + eqidx idx)
       | None => None
       end
  else Some (maprank idx, pidx idx).

Definition load (pdb : patterndb) (ptr : nat * nat) : option Z :=
  match tables pdb !! fst ptr with
  | Some tbl => tbl !! snd ptr
  | None => None
  end.

Definition store (pdb : patterndb) (ptr : nat * nat) (byte : Z) : patterndb :=
  match tables pdb !! fst ptr with
  | Some tbl => mkPatterndb (aux pdb) (<[fst ptr := <[snd ptr := byte]> tbl]> (tables pdb))
  | None => pdb
  end.

(** [None] stands for a pointer outside the tables. *)
Definition pdb_lookup (pdb : patterndb) (idx : index) : option Z :=
  match pdb_entry_pointer pdb idx with
  | Some ptr => load pdb ptr
  | None => None
  end.

Definition uchar (x : Z) : Z := (x mod 256)%Z.

Definition pdb_update (pdb : patterndb) (idx : index) (dist : Z)
    : option patterndb :=
  match pdb_entry_pointer pdb idx with
  | Some ptr =>
      match load pdb ptr with
      | Some _ => Some (store pdb ptr (uchar dist))
      | None => None
      end
  | None => None
  end.

(** [atomic_compare_exchange_strong] on one byte is one indivisible
    step: a function from the table before it to the value returned
    and the table after it. *)
Definition pdb_conditional_update (pdb : patterndb) (idx : index)
    (expected desired : Z) : option (Z * patterndb) :=
  let exp := uchar expected in
  match pdb_entry_pointer pdb idx with
  | Some ptr =>
      match load pdb ptr with
      | Some cur =>
          if (cur =? exp)%Z
          then Some (1%Z, store pdb ptr (uchar desired))
          else Some (0%Z, pdb)
      | None => None
      end
  | None => None
  end.

(** Calls [pdb_conditional_update(pdb, idx, UNREACHED, d)] one
    after the other, for the distances [ds] the callers offer, in
    the order in which the atomic steps take effect. *)
Fixpoint fill_calls (pdb : patterndb) (idx : index) (ds : list Z)
    : option (list Z * patterndb) :=
  match ds with
  | [] => Some ([], pdb)
  | d :: rest =>
      match pdb_conditional_update pdb idx UNREACHED d with
      | Some (r, pdb') =>
          match fill_calls pdb' idx rest with
          | Some (rs, pdb'') => Some (r :: rs, pdb'')
          | None => None
          end
      | None => None
      end
  end.

End Tileset.

End PDB.

(** ** Runs without failures, and runs that stop at a failure *)

(** [m] returns [a] whenever no library call fails. *)
Definition returns {A} (m : M A) (a : A) : Prop :=
  forall e, faults e = [] -> exists e', m e = Ret a e' /\ faults e' = [].

(** The library calls whose result the source does not look at. *)
Definition unchecked (op : io_op) : bool :=
  match op with
  | Fclose | Remove _ => true
  | Fopen _ | Fread | Fwrite => false
  end.

(** The argument of [perror] after a failed call. *)
Definition diagnostic (op : io_op) : string :=
  match op with
  | Fopen path => path
  | Fread => "getpuzzle"
  | Fwrite => "putpuzzle"
  | Fclose | Remove _ => ""
  end.

(** A logged call after which the program may go on. *)
Definition passed (ev : io_op * bool) : Prop :=
  snd ev = true -> unchecked (fst ev) = true.

(** [m] goes on only past calls that succeeded or are unchecked, and
    says nothing on [stderr] then; it stops with [EXIT_FAILURE] at the
    first checked call that fails, after one diagnostic that names the
    path or the operation; it does not run out of fuel. *)
Definition fail_stop {A} (m : M A) : Prop :=
  forall e,
    match m e with
    | Ret _ e' =>
        exists evs, events e' = events e ++ evs /\ Forall passed evs
                    /\ stderr e' = stderr e
    | Exited status e' =>
        status = EXIT_FAILURE
        /\ exists evs op,
             events e' = events e ++ evs ++ [(op, true)]
             /\ Forall passed evs /\ unchecked op = false
             /\ stderr e' = stderr e ++ [diagnostic op]
    | Undefined => True
    | NoFuel => False
    end.

(** [fail_stop] with a property of the value returned. *)
Definition fail_stop_with {A} (P : A -> Prop) (m : M A) : Prop :=
  forall e,
    match m e with
    | Ret a e' =>
        P a /\ exists evs, events e' = events e ++ evs /\ Forall passed evs
                           /\ stderr e' = stderr e
    | Exited status e' =>
        status = EXIT_FAILURE
        /\ exists evs op,
             events e' = events e ++ evs ++ [(op, true)]
             /\ Forall passed evs /\ unchecked op = false
             /\ stderr e' = stderr e ++ [diagnostic op]
    | Undefined => True
    | NoFuel => False
    end.

(** A stream whose error indicator is clear. *)
Definition clean (f : FILE) : Prop := ferror f = false.

(** ** Further notions: traces of bucket files, table invariants *)














(** An option other than [-f]. *)
Definition not_samplefile (o : ascii * string) : bool := negb (Ascii.eqb (fst o) "f").

(** No two neighbours in the stream have the same configuration. *)
Definition neighbours_differ (MOVE_MASK : Z) (l : list compact_puzzle) : Prop :=
  forall l1 a b l2,
    l = l1 ++ a :: b :: l2 -> same_configuration MOVE_MASK a b = false.

Fixpoint neighbours_differb (MOVE_MASK : Z) (l : list compact_puzzle) : bool :=
  match l with
  | a :: (b :: _) as l' =>
      (negb (same_configuration MOVE_MASK a b) && neighbours_differb MOVE_MASK l')%bool
  | _ => true
  end.

(** Every entry of every table of the pattern database is a byte. *)
Definition pdb_bytes {tileset : Type} (pdb : PDB.patterndb tileset) : Prop :=
  Forall (Forall (fun b => (0 <= b < 256)%Z)) (PDB.tables tileset pdb).

(** The lengths of the tables. *)
Definition pdb_shape {tileset : Type} (pdb : PDB.patterndb tileset) : list nat :=
  map (@length Z) (PDB.tables tileset pdb).

(** ** A 5x5 board to run the code on *)

Module Grid5.

(** Modelled from the spec: [puzzle.h] is outside the files embedded
    here.  A puzzle is the array [tiles] of the grid locations of the
    tiles 0..24, tile 0 being the blank. *)
Definition puzzle : Type := list nat.

(** Modelled from the spec: [p.tiles[t]], the place of tile [t]. *)
Definition tiles (p : puzzle) (t : nat) : nat := nth t p 0.

(** Modelled from the spec: [zero_location], the place of the blank. *)
Definition zero_location (p : puzzle) : nat := tiles p 0.

(** Modelled from the spec: [move] swaps the blank with the tile at
    the grid location [dest]. *)
Definition move (p : puzzle) (dest : nat) : puzzle :=
  let z := zero_location p in
  map (fun l => if l =? dest then z else if l =? z then dest else l) p.

(** Modelled from the spec: [get_moves], the move table: the grid
    locations next to [zloc] on the 5x5 grid, in increasing order. *)
Definition get_moves (zloc : nat) : list nat :=
  (if 5 <=? zloc then [zloc - 5] else [])
  ++ (if 0 <? zloc mod 5 then [zloc - 1] else [])
  ++ (if zloc mod 5 <? 4 then [zloc + 1] else [])
  ++ (if zloc <? 20 then [zloc + 5] else []).

(** Modelled from the spec: [move_count], the length of that row of
    the move table. *)
Definition move_count (zloc : nat) : nat := length (get_moves zloc).

(** Modelled from the spec: [compact.h] is outside the files embedded
    here.  [MOVE_MASK] covers the mask field, the low four bits of
    [lo], one bit for each move of a row of the move table. *)
Definition MOVE_MASK : Z := 15.

(** Modelled from the spec: five bits a tile, from the bit [shift] on. *)
Fixpoint pack_tiles (ts : list nat) (shift : Z) : Z :=
  match ts with
  | [] => 0
  | t :: ts' => Z.lor (Z.shiftl (Z.of_nat t) shift) (pack_tiles ts' (shift + 5))
  end.

(** Modelled from the spec: [pack_puzzle] with the mask zero: the
    tiles 0..11 in [lo] above the mask field, the tiles 12..23 in
    [hi]; the place of the last tile is left out. *)
Definition pack_puzzle (p : puzzle) : compact_puzzle :=
  CP (pack_tiles (firstn 12 p) 4) (pack_tiles (firstn 12 (skipn 12 p)) 0).

(** Modelled from the spec: the mask that forbids the move to [dest]. *)
Fixpoint mask_for (moves : list nat) (dest : nat) (i : Z) : Z :=
  match moves with
  | [] => 0
  | m :: moves' =>
      Z.lor (if m =? dest then Z.shiftl 1 i else 0) (mask_for moves' dest (i + 1))
  end.

(** Modelled from the spec: [pack_puzzle_masked] packs [p] and sets in
    the mask the bit of the move that leads back to [dest]. *)
Definition pack_puzzle_masked (p : puzzle) (dest : nat) : compact_puzzle :=
  let cp := pack_puzzle p in
  CP (Z.lor (lo cp) (mask_for (get_moves (zero_location p)) dest 0)) (hi cp).

(** Modelled from the spec: [move_mask], the mask field of a record. *)
Definition move_mask (cp : compact_puzzle) : Z := Z.land (lo cp) MOVE_MASK.

(** Modelled from the spec: [n] fields of five bits of [accum]. *)
Fixpoint unpack_tiles (n : nat) (accum : Z) : list nat :=
  match n with
  | O => []
  | S n' => Z.to_nat (Z.land accum 31) :: unpack_tiles n' (Z.shiftr accum 5)
  end.

(** Modelled from the spec: the grid location that none of [ts] takes. *)
Definition free_location (ts : list nat) : nat :=
  hd 0 (List.filter (fun l => negb (existsb (Nat.eqb l) ts)) (seq 0 TILE_COUNT)).

(** Modelled from the spec: [unpack_puzzle], the inverse of
    [pack_puzzle] on the state field; the last tile takes the place
    that is left. *)
Definition unpack_puzzle (cp : compact_puzzle) : puzzle :=
  let ts := unpack_tiles 12 (Z.shiftr (lo cp) 4) ++ unpack_tiles 12 (hi cp) in
  ts ++ [free_location ts].

(** Modelled from the spec: the solved puzzle, tile [t] at place [t]. *)
Definition solved_puzzle : puzzle := seq 0 TILE_COUNT.

(** The functions of [puzzledistext.c] on this board. *)
Definition same_configuration := same_configuration MOVE_MASK.
Definition coalesce := coalesce MOVE_MASK.
Definition coalesce_out := coalesce_out MOVE_MASK.
Definition expandpuzzle :=
  expandpuzzle puzzle tiles unpack_puzzle pack_puzzle_masked move_mask
    zero_location move_count get_moves move.
Definition expround_sort :=
  expround_sort puzzle tiles unpack_puzzle pack_puzzle_masked move_mask
    zero_location move_count get_moves move.
Definition expround :=
  expround MOVE_MASK puzzle tiles unpack_puzzle pack_puzzle_masked move_mask
    zero_location move_count get_moves move.
Definition expround_out :=
  expround_out MOVE_MASK puzzle tiles unpack_puzzle pack_puzzle_masked move_mask
    zero_location move_count get_moves move.
Definition open_moves :=
  open_moves puzzle unpack_puzzle move_mask zero_location move_count.

(** Some records: the solved puzzle, the solved puzzle with tiles 23
    and 24 exchanged, the solved puzzle with the blank in the middle
    of the board, its move 0 masked, and the solved puzzle with both
    its moves masked. *)
Definition solved_cp : compact_puzzle := pack_puzzle solved_puzzle.

Definition swapped_cp : compact_puzzle :=
  pack_puzzle (seq 0 23 ++ [24; 23]).

Definition centre_cp : compact_puzzle :=
  let cp := pack_puzzle (12 :: seq 1 11 ++ 0 :: seq 13 12) in
  CP (Z.lor (lo cp) 1) (hi cp).

Definition masked_cp : compact_puzzle := CP (Z.lor (lo solved_cp) 3) (hi solved_cp).

(** A parent with two children, and the two records that stand for
    one of them with different masks. *)
Definition child_a : compact_puzzle := CP (Z.lor (lo solved_cp) 1) (hi solved_cp).
Definition child_b : compact_puzzle := CP (Z.lor (lo solved_cp) 2) (hi solved_cp).

(** Modelled from the spec: [cps_round] is outside the files embedded
    here.  The round in memory: the children of the records of the
    layer over their unmasked moves, each with the move back to its
    parent masked, one record for each configuration, the masks
    or-ed. *)
Definition children (cp : compact_puzzle) : list compact_puzzle :=
  let p := unpack_puzzle cp in
  let zloc := zero_location p in
  map (fun i => pack_puzzle_masked (move p (nth i (get_moves zloc) 0)) zloc)
    (open_moves cp).

Fixpoint add_record (r : compact_puzzle) (l : list compact_puzzle)
    : list compact_puzzle :=
  match l with
  | [] => [r]
  | x :: l' =>
      if same_configuration x r then CP (Z.lor (lo x) (lo r)) (hi x) :: l'
      else x :: add_record r l'
  end.

Definition cps_round (new_cps old_cps : list compact_puzzle) : list compact_puzzle :=
  fold_left (fun acc r => add_record r acc) (flat_map children old_cps) new_cps.

(** Further stand-ins for the collaborators of [main]: a round that
    finds no successor, a sampler that leaves the layer alone, and a
    reader of decimal digits for [atoi] and [strtoull]. *)

Definition barren_round (new_cps old_cps : list compact_puzzle)
    : list compact_puzzle := new_cps.

Definition no_sampling (f : string) (cps : list compact_puzzle) (i n : Z)
    : list compact_puzzle := cps.

Fixpoint decimal_from (s : string) (acc : Z) : Z :=
  match s with
  | EmptyString => acc
  | String c s' =>
      let n := nat_of_ascii c in
      if ((48 <=? n) && (n <=? 57))%bool
      then decimal_from s' (10 * acc + Z.of_nat (n - 48))%Z
      else acc
  end.

Definition decimal (s : string) : Z := decimal_from s 0%Z.

Definition driver := main cps_round no_sampling solved_cp decimal decimal.
Definition barren_driver := main barren_round no_sampling solved_cp decimal decimal.

(** A directory name that fills the buffer of [PATH_MAX] characters. *)
Fixpoint letters (n : nat) : string :=
  match n with
  | O => EmptyString
  | S n' => String "d" (letters n')
  end.

Definition long_dir : string := letters (PATH_MAX - 1).

(** Modelled from the spec: [tileset.h] is outside the files embedded
    here.  A tile set is a bit mask. *)
Definition tileset : Type := Z.

(** Modelled from the spec: [tileset_has], the bit of tile [t]. *)
Definition tileset_has (ts : tileset) (t : nat) : bool := Z.testbit ts (Z.of_nat t).

(** Modelled from the spec: tile 0 is the blank. *)
Definition ZERO_TILE : nat := 0.

(** A table for the tile set of the tiles 1, 2, 3 after [pdb_clear]:
    every entry is [UNREACHED]; and a table for the tile set of the
    blank and the tiles 1, 2, 3, with two equivalence classes for its
    one map rank. *)

Definition cleared_pdb : PDB.patterndb tileset :=
  PDB.mkPatterndb tileset
    (PDB.mkIndexAux tileset 14%Z [PDB.mkIndexTable 1])
    [[255; 255; 255; 255]%Z].

Definition blank_pdb : PDB.patterndb tileset :=
  PDB.mkPatterndb tileset
    (PDB.mkIndexAux tileset 15%Z [PDB.mkIndexTable 2])
    [[255; 255; 255; 255; 255; 255]%Z].

Definition pdb_conditional_update :=
  PDB.pdb_conditional_update tileset tileset_has ZERO_TILE.
Definition fill_calls := PDB.fill_calls tileset tileset_has ZERO_TILE.

End Grid5.

(** * Facts *)

(** ** Runs in which no library call fails *)

Lemma returns_ret {A} (a : A) : returns (ret a) a.
Proof. intros e He. exists e. split; [reflexivity | exact He]. Qed.

Lemma returns_bind {A B} (m : M A) (k : A -> M B) (a : A) (b : B) :
  returns m a -> returns (k a) b -> returns (bind m k) b.
Proof.
  intros Hm Hk e He. destruct (Hm e He) as (e1 & Hr & He1).
  destruct (Hk e1 He1) as (e2 & Hr2 & He2).
  exists e2. unfold bind. rewrite Hr. split; assumption.
Qed.

Lemma returns_syscall (op : io_op) : returns (syscall op) false.
Proof.
  intros e He. unfold syscall. rewrite He. simpl.
  eexists. split; reflexivity.
Qed.

Lemma returns_getpuzzle_cons (b : list compact_puzzle) (cp : compact_puzzle)
    (l : list compact_puzzle) :
  returns (getpuzzle (mkFILE b (cp :: l) false)) (Some cp, mkFILE (b ++ [cp]) l false).
Proof.
  unfold getpuzzle, fread.
  eapply returns_bind.
  - eapply returns_bind; [apply returns_syscall | apply returns_ret].
  - apply returns_ret.
Qed.

Lemma returns_getpuzzle_nil (b : list compact_puzzle) :
  returns (getpuzzle (mkFILE b [] false)) (None, mkFILE b [] false).
Proof.
  unfold getpuzzle, fread.
  eapply returns_bind.
  - eapply returns_bind; [apply returns_syscall | apply returns_ret].
  - apply returns_ret.
Qed.

Lemma returns_putpuzzle (l : list compact_puzzle) (cp : compact_puzzle) :
  returns (putpuzzle (FILE_after l) cp) (FILE_after (l ++ [cp])).
Proof.
  unfold putpuzzle, fwrite.
  eapply returns_bind.
  - eapply returns_bind; [apply returns_syscall | apply returns_ret].
  - apply returns_ret.
Qed.

Lemma returns_fopen (path : string) : returns (fopen path) (Some empty_FILE).
Proof.
  unfold fopen. eapply returns_bind; [apply returns_syscall | apply returns_ret].
Qed.

Lemma returns_fclose (f : FILE) : returns (fclose f) 0%Z.
Proof.
  unfold fclose. eapply returns_bind; [apply returns_syscall | apply returns_ret].
Qed.

Lemma returns_removerdxfile (dir : string) (round loc : nat) :
  returns (removerdxfile dir round loc) tt.
Proof.
  unfold removerdxfile, remove.
  eapply returns_bind; [| apply returns_ret].
  eapply returns_bind; [apply returns_syscall | apply returns_ret].
Qed.

(** The reading loop, when its body acts on the states [abs a] as
    [step] does on [a], for every [a] that satisfies an invariant. *)
Lemma returns_while_getpuzzle {St Abs : Type} (abs : Abs -> St)
    (body : compact_puzzle -> St -> M St)
    (step : Abs -> compact_puzzle -> Abs) (I : Abs -> Prop)
    (l : list compact_puzzle) :
  (forall cp a, In cp l -> I a ->
     returns (body cp (abs a)) (abs (step a cp)) /\ I (step a cp)) ->
  forall fuel a b, length l < fuel -> I a ->
    returns (while_getpuzzle fuel body (mkFILE b l false) (abs a))
            (abs (fold_left step l a), mkFILE (b ++ l) [] false).
Proof.
  induction l as [| cp l IH]; intros Hbody fuel a b Hfuel Ha.
  - destruct fuel as [| n]; [simpl in Hfuel; lia |]. simpl. rewrite app_nil_r.
    eapply returns_bind; [apply returns_getpuzzle_nil | apply returns_ret].
  - destruct fuel as [| n]; [simpl in Hfuel; lia |]. simpl.
    eapply returns_bind; [apply returns_getpuzzle_cons |].
    destruct (Hbody cp a (or_introl eq_refl) Ha) as [Hr Hi].
    eapply returns_bind; [exact Hr |].
    replace (b ++ cp :: l) with ((b ++ [cp]) ++ l)
      by (rewrite <- app_assoc; reflexivity).
    apply IH.
    + intros cp' a' Hin Ha'. apply Hbody; [right; exact Hin | exact Ha'].
    + simpl in Hfuel. lia.
    + exact Hi.
Qed.

Lemma returns_for_each {St Abs : Type} (abs : Abs -> St)
    (body : nat -> St -> M St)
    (step : Abs -> nat -> Abs) (I : Abs -> Prop) (locs : list nat) :
  (forall loc a, In loc locs -> I a ->
     returns (body loc (abs a)) (abs (step a loc)) /\ I (step a loc)) ->
  forall a, I a -> returns (for_each locs body (abs a)) (abs (fold_left step locs a)).
Proof.
  induction locs as [| loc locs IH]; intros Hbody a Ha; simpl.
  - apply returns_ret.
  - destruct (Hbody loc a (or_introl eq_refl) Ha) as [Hr Hi].
    eapply returns_bind; [exact Hr |].
    apply IH; [| exact Hi].
    intros loc' a' Hin Ha'. apply Hbody; [right; exact Hin | exact Ha'].
Qed.

(** ** The coalescer *)

Section CoalesceFacts.

Variable MOVE_MASK : Z.

Local Abbreviation same := (same_configuration MOVE_MASK).

Local Abbreviation cfg := (configuration MOVE_MASK).

Lemma land_lxor_zero (x y n : Z) :
  Z.land (Z.lxor x y) n = 0%Z <-> Z.land x n = Z.land y n.
Proof.
  split; intros H.
  - apply Z.bits_inj'. intros i Hi.
    assert (Hb : Z.testbit (Z.land (Z.lxor x y) n) i = false)
      by (rewrite H; apply Z.bits_0).
    rewrite Z.land_spec, Z.lxor_spec in Hb. rewrite !Z.land_spec.
    destruct (Z.testbit x i), (Z.testbit y i), (Z.testbit n i);
      simpl in *; congruence.
  - apply Z.bits_inj'. intros i Hi.
    assert (Hb : Z.testbit (Z.land x n) i = Z.testbit (Z.land y n) i)
      by (rewrite H; reflexivity).
    rewrite !Z.land_spec in Hb. rewrite Z.land_spec, Z.lxor_spec, Z.bits_0.
    destruct (Z.testbit x i), (Z.testbit y i), (Z.testbit n i);
      simpl in *; congruence.
Qed.

Lemma same_cfg (a b : compact_puzzle) : same a b = true <-> cfg a = cfg b.
Proof.
  unfold same_configuration, configuration.
  rewrite andb_true_iff, !Z.eqb_eq, land_lxor_zero.
  split; [intros [-> ->]; reflexivity | intros H; injection H; auto].
Qed.

Lemma same_cfg_false (a b : compact_puzzle) : same a b = false <-> cfg a <> cfg b.
Proof.
  rewrite <- same_cfg. destruct (same a b); split; congruence.
Qed.

Lemma same_refl (a : compact_puzzle) : same a a = true.
Proof. apply same_cfg. reflexivity. Qed.

Lemma same_of_cfg (a a' b b' : compact_puzzle) :
  cfg a = cfg a' -> cfg b = cfg b' -> same a b = same a' b'.
Proof.
  intros Ha Hb.
  destruct (same a b) eqn:E1, (same a' b') eqn:E2; try reflexivity.
  - apply same_cfg in E1. apply same_cfg_false in E2. congruence.
  - apply same_cfg in E2. apply same_cfg_false in E1. congruence.
Qed.

Lemma cfg_merge (a b : compact_puzzle) : same a b = true -> cfg (merge a b) = cfg a.
Proof.
  intros H. apply same_cfg in H. unfold configuration in *. simpl.
  injection H as Hh Hl.
  rewrite Z.land_lor_distr_l, <- Hl, Z.lor_diag. reflexivity.
Qed.

(** *** The run of [coalesce] and the pass on lists *)

Local Abbreviation cstep := (coalesce_turn MOVE_MASK).

Lemma returns_coalesce_step (b : compact_puzzle) (s : compact_puzzle * FILE) :
  (exists o, snd s = FILE_after o) ->
  returns (coalesce_step MOVE_MASK b s) (cstep s b)
  /\ exists o, snd (cstep s b) = FILE_after o.
Proof.
  destruct s as [a f]. simpl. intros [o ->].
  unfold coalesce_step, coalesce_turn. destruct (same a b).
  - split; [apply returns_ret | exists o; reflexivity].
  - split; [| eexists; reflexivity].
    eapply returns_bind; [apply (returns_putpuzzle o a) | apply returns_ret].
Qed.

Lemma fold_cstep (rest : list compact_puzzle) :
  forall (a : compact_puzzle) (o : list compact_puzzle),
    exists a' o',
      fold_left cstep rest (a, FILE_after o) = (a', FILE_after o')
      /\ o' ++ [a'] = o ++ coalesce_from MOVE_MASK a rest.
Proof.
  induction rest as [| b rest IH]; intros a o; simpl.
  - exists a, o. split; reflexivity.
  - destruct (same a b).
    + apply IH.
    + destruct (IH b (o ++ [a])) as (a' & o' & Hf & Ho).
      exists a', o'. split; [exact Hf |].
      rewrite Ho, <- app_assoc. reflexivity.
Qed.

Lemma returns_coalesce (o input : list compact_puzzle) :
  returns (coalesce MOVE_MASK (FILE_after o) (FILE_of input))
          (FILE_after (o ++ coalesce_spec MOVE_MASK input), FILE_after input).
Proof.
  unfold coalesce, FILE_of. destruct input as [| a rest].
  - eapply returns_bind; [apply returns_getpuzzle_nil |].
    simpl. rewrite app_nil_r. apply returns_ret.
  - eapply returns_bind; [apply returns_getpuzzle_cons |].
    destruct (fold_cstep rest a o) as (a' & o' & Hf & Ho).
    eapply returns_bind.
    + apply (returns_while_getpuzzle (fun s => s) _ cstep
               (fun s => exists o0, snd s = FILE_after o0)).
      * intros cp s _ Hs. apply returns_coalesce_step; exact Hs.
      * unfold fuel_for. simpl. lia.
      * exists o. reflexivity.
    + rewrite Hf. eapply returns_bind; [apply returns_putpuzzle |].
      simpl. rewrite Ho. apply returns_ret.
Qed.

Lemma coalesce_out_spec (input : list compact_puzzle) :
  coalesce_out MOVE_MASK input = Some (coalesce_spec MOVE_MASK input).
Proof.
  unfold coalesce_out.
  destruct (returns_coalesce [] input quiet_env eq_refl) as (e' & Hr & _).
  change (FILE_after []) with empty_FILE in Hr. rewrite Hr.
  unfold records. simpl. rewrite app_nil_r. reflexivity.
Qed.

(** *** Groups of one configuration *)

Lemma adjacent_tail (a : compact_puzzle) (l : list compact_puzzle) :
  configurations_adjacent MOVE_MASK (a :: l) -> configurations_adjacent MOVE_MASK l.
Proof.
  intros H l1 x l2 y l3 El Hxy.
  apply (H (a :: l1) x l2 y l3); [rewrite El; reflexivity | exact Hxy].
Qed.

Lemma adjacent_head (a b : compact_puzzle) (l : list compact_puzzle) (x : compact_puzzle) :
  configurations_adjacent MOVE_MASK (a :: b :: l) ->
  In x l -> same a x = true -> same a b = true.
Proof.
  intros H Hin Hax. apply in_split in Hin as (l2 & l3 & ->).
  specialize (H [] a (b :: l2) x l3 eq_refl Hax).
  inversion H; assumption.
Qed.

Lemma adjacent_merge (a b : compact_puzzle) (l : list compact_puzzle) :
  same a b = true ->
  configurations_adjacent MOVE_MASK (a :: b :: l) ->
  configurations_adjacent MOVE_MASK (merge a b :: l).
Proof.
  intros Hab H l1 x l2 y l3 El Hxy.
  destruct l1 as [| m l1]; simpl in El; injection El as Ex El.
  - subst x l.
    assert (Hs : forall z, same (merge a b) z = same a z)
      by (intros z; apply same_of_cfg; [apply cfg_merge; exact Hab | reflexivity]).
    rewrite Hs in Hxy.
    specialize (H [] a (b :: l2) y l3 eq_refl Hxy).
    inversion H as [| ? ? _ Hl2]; subst.
    eapply List.Forall_impl; [| exact Hl2]. intros z Hz. simpl in Hz. rewrite Hs. exact Hz.
  - subst m l. apply (H (a :: b :: l1) x l2 y l3); [reflexivity | exact Hxy].
Qed.

Lemma coalesce_from_origin (rest : list compact_puzzle) :
  forall a y, In y (coalesce_from MOVE_MASK a rest) ->
    exists x, In x (a :: rest) /\ same x y = true.
Proof.
  induction rest as [| b rest IH]; intros a y Hy; simpl in Hy.
  - destruct Hy as [<- | []]. exists a. split; [left; reflexivity | apply same_refl].
  - destruct (same a b) eqn:Hab.
    + destruct (IH _ _ Hy) as (x & [<- | Hin] & Hx).
      * exists a. split; [left; reflexivity |].
        rewrite <- Hx. apply same_of_cfg; [symmetry; apply cfg_merge; exact Hab | reflexivity].
      * exists x. split; [right; right; exact Hin | exact Hx].
    + destruct Hy as [<- | Hy].
      * exists a. split; [left; reflexivity | apply same_refl].
      * destruct (IH _ _ Hy) as (x & Hin & Hx).
        exists x. split; [right; exact Hin | exact Hx].
Qed.

Lemma filter_same_none (x : compact_puzzle) (l : list compact_puzzle) :
  (forall y, In y l -> same x y = false) -> List.filter (same x) l = [].
Proof.
  induction l as [| y l IH]; intros H; simpl; [reflexivity |].
  rewrite (H y (or_introl eq_refl)). apply IH. intros z Hz. apply H. right. exact Hz.
Qed.

Lemma coalesce_from_once (rest : list compact_puzzle) :
  forall a, configurations_adjacent MOVE_MASK (a :: rest) ->
    forall x, In x (a :: rest) ->
      length (List.filter (same x) (coalesce_from MOVE_MASK a rest)) = 1.
Proof.
  induction rest as [| b rest IH]; intros a Hadj x Hx.
  - destruct Hx as [<- | []]. simpl. rewrite same_refl. reflexivity.
  - simpl. destruct (same a b) eqn:Hab.
    + assert (Hm : cfg (merge a b) = cfg a) by (apply cfg_merge; exact Hab).
      specialize (IH (merge a b) (adjacent_merge a b rest Hab Hadj)).
      assert (Hhead : length (List.filter (same (merge a b))
                        (coalesce_from MOVE_MASK (merge a b) rest)) = 1)
        by (apply IH; left; reflexivity).
      destruct Hx as [<- | [<- | Hx]].
      * erewrite filter_ext; [exact Hhead |].
        intros z. apply same_of_cfg; [symmetry; exact Hm | reflexivity].
      * erewrite filter_ext; [exact Hhead |].
        intros z. apply same_of_cfg; [| reflexivity].
        apply same_cfg in Hab. congruence.
      * apply IH. right. exact Hx.
    + assert (Hno : forall z, In z (b :: rest) -> same a z = false).
      { intros z [<- | Hz]; [exact Hab |].
        destruct (same a z) eqn:Haz; [| reflexivity].
        rewrite (adjacent_head a b rest z Hadj Hz Haz) in Hab. discriminate. }
      destruct Hx as [<- | Hx].
      * simpl. rewrite same_refl. simpl. f_equal.
        rewrite filter_same_none; [reflexivity |].
        intros y Hy. destruct (coalesce_from_origin _ _ _ Hy) as (z & Hz & Hzy).
        rewrite <- (Hno z Hz). apply same_of_cfg; [reflexivity |].
        apply same_cfg in Hzy. congruence.
      * simpl. assert (Hxa : same x a = false).
        { apply same_cfg_false. intros E.
          specialize (Hno x Hx). apply same_cfg_false in Hno. congruence. }
        rewrite Hxa. apply IH; [eapply adjacent_tail; exact Hadj | exact Hx].
Qed.

(** C2.  [coalesce] is the single pass over its input that holds a
    current record, merges into it the records of the same
    configuration that follow ([a.lo |= b.lo]) and emits it when
    another configuration arrives or the input ends; when the
    records of each configuration are adjacent in the input, the
    output has exactly one record for each configuration. *)
Theorem coalesce_linear_pass (input : list compact_puzzle) :
  coalesce_out MOVE_MASK input = Some (coalesce_spec MOVE_MASK input)
  /\ (configurations_adjacent MOVE_MASK input ->
      forall out, coalesce_out MOVE_MASK input = Some out ->
                  one_per_configuration MOVE_MASK input out).
Proof.
  split; [apply coalesce_out_spec |].
  intros Hadj out Hout. rewrite coalesce_out_spec in Hout. injection Hout as <-.
  destruct input as [| a rest].
  - split; [intros x [] | intros y []].
  - split.
    + intros x Hx. apply coalesce_from_once; assumption.
    + intros y Hy. apply coalesce_from_origin. exact Hy.
Qed.

Lemma leaves_for_good_sound (x : compact_puzzle) (l2 : list compact_puzzle) :
  forall y l3,
    leaves_for_good MOVE_MASK x (l2 ++ y :: l3) = true -> same x y = true ->
    Forall (fun z => same x z = true) l2.
Proof.
  induction l2 as [| z l2 IH]; intros y l3 H Hxy; [constructor |].
  simpl in H. destruct (same x z) eqn:Hxz.
  - constructor; [exact Hxz | eapply IH; eassumption].
  - rewrite forallb_app in H. simpl in H. rewrite Hxy in H. simpl in H.
    rewrite andb_false_r in H. discriminate.
Qed.

Lemma configurations_adjacentb_sound (l : list compact_puzzle) :
  configurations_adjacentb MOVE_MASK l = true -> configurations_adjacent MOVE_MASK l.
Proof.
  induction l as [| a l IH]; intros H l1 x l2 y l3 El Hxy.
  - destruct l1; discriminate.
  - simpl in H. apply andb_true_iff in H as [Ha Hl].
    destruct l1 as [| m l1]; simpl in El; injection El as -> ->.
    + eapply leaves_for_good_sound; eassumption.
    + eapply IH; [exact Hl | reflexivity | exact Hxy].
Qed.

(** *** The mask of a group *)

Lemma coalesce_from_group (rest : list compact_puzzle) :
  forall a post,
    Forall (fun z => same a z = true) rest ->
    (post = [] \/ same a (hd a post) = false) ->
    coalesce_from MOVE_MASK a (rest ++ post)
    = fold_left merge rest a :: coalesce_spec MOVE_MASK post.
Proof.
  induction rest as [| b rest IH]; intros a post Hall Hpost.
  - simpl. destruct Hpost as [-> | Hp]; [reflexivity |].
    destruct post as [| c post]; [reflexivity |]. simpl in *. rewrite Hp. reflexivity.
  - inversion Hall as [| ? ? Hab Hrest]; subst. simpl. rewrite Hab.
    assert (Hs : forall z, same (merge a b) z = same a z)
      by (intros z; apply same_of_cfg; [apply cfg_merge; exact Hab | reflexivity]).
    apply IH.
    + eapply List.Forall_impl; [| exact Hrest]. intros z Hz. simpl in Hz. rewrite Hs. exact Hz.
    + destruct Hpost as [-> | Hp]; [left; reflexivity | right].
      destruct post as [| c post]; simpl in *.
      * rewrite same_refl in Hp. discriminate.
      * rewrite Hs. exact Hp.
Qed.

Lemma last_cons {A} (l : list A) :
  forall b d, List.last (b :: l) d = List.last l b.
Proof.
  induction l as [| c l IH]; intros b d; [reflexivity |].
  change (List.last (b :: c :: l) d) with (List.last (c :: l) d).
  rewrite (IH c d), (IH c b). reflexivity.
Qed.

Lemma coalesce_from_app (pre : list compact_puzzle) :
  forall a0 a rest,
    same (List.last pre a0) a = false ->
    coalesce_from MOVE_MASK a0 (pre ++ a :: rest)
    = coalesce_from MOVE_MASK a0 pre ++ coalesce_from MOVE_MASK a rest.
Proof.
  induction pre as [| b pre IH]; intros a0 a rest Hlast.
  - simpl in *. rewrite Hlast. reflexivity.
  - rewrite last_cons in Hlast.
    change ((b :: pre) ++ a :: rest) with (b :: (pre ++ a :: rest)).
    simpl. destruct (same a0 b) eqn:Hab.
    + apply IH. destruct pre as [| c pre];
        [| rewrite last_cons in *; exact Hlast].
      simpl in *. rewrite <- Hlast. apply same_of_cfg; [| reflexivity].
      rewrite cfg_merge by exact Hab. apply same_cfg. exact Hab.
    + rewrite IH by exact Hlast. reflexivity.
Qed.

Lemma merged_group (rest : list compact_puzzle) :
  forall a, Forall (fun z => same a z = true) rest ->
    hi (fold_left merge rest a) = hi a
    /\ same (fold_left merge rest a) a = true
    /\ mask_bits MOVE_MASK (fold_left merge rest a) = mask_union MOVE_MASK (a :: rest).
Proof.
  unfold mask_union, mask_bits.
  induction rest as [| b rest IH]; intros a Hall.
  - simpl. rewrite Z.lor_0_r. split; [reflexivity | split; [apply same_refl | reflexivity]].
  - inversion Hall as [| ? ? Hab Hrest]; subst.
    assert (Hm : cfg (merge a b) = cfg a) by (apply cfg_merge; exact Hab).
    assert (Hs : forall z, same (merge a b) z = same a z)
      by (intros z; apply same_of_cfg; [exact Hm | reflexivity]).
    destruct (IH (merge a b)) as (Hh & Hc & Hmask).
    { eapply List.Forall_impl; [| exact Hrest]. intros z Hz. simpl in Hz. rewrite Hs. exact Hz. }
    simpl fold_left. split; [rewrite Hh; reflexivity | split].
    + apply same_cfg. apply same_cfg in Hc. congruence.
    + rewrite Hmask. simpl. rewrite Z.land_lor_distr_l, Z.lor_assoc. reflexivity.
Qed.

(** C5.  A group of adjacent records of one configuration that no
    neighbour extends comes out of [coalesce] as one record, whose
    mask field is the bitwise or of the mask fields of the records
    of the group. *)
Theorem coalesce_mask_union (pre : list compact_puzzle) (a : compact_puzzle)
    (rest post : list compact_puzzle) :
  Forall (fun z => same a z = true) rest ->
  (pre = [] \/ same (List.last pre a) a = false) ->
  (post = [] \/ same a (hd a post) = false) ->
  exists r out_pre out_post,
    coalesce_out MOVE_MASK pre = Some out_pre
    /\ coalesce_out MOVE_MASK post = Some out_post
    /\ coalesce_out MOVE_MASK (pre ++ (a :: rest) ++ post)
       = Some (out_pre ++ r :: out_post)
    /\ hi r = hi a
    /\ same r a = true
    /\ mask_bits MOVE_MASK r = mask_union MOVE_MASK (a :: rest).
Proof.
  intros Hall Hpre Hpost.
  exists (fold_left merge rest a), (coalesce_spec MOVE_MASK pre),
    (coalesce_spec MOVE_MASK post).
  rewrite !coalesce_out_spec.
  destruct (merged_group rest a Hall) as (Hh & Hc & Hm).
  repeat split; try assumption.
  f_equal. destruct pre as [| a0 pre].
  - simpl. apply coalesce_from_group; assumption.
  - destruct Hpre as [E | Hlast]; [discriminate |].
    change ((a0 :: pre) ++ (a :: rest) ++ post) with (a0 :: (pre ++ a :: (rest ++ post))).
    unfold coalesce_spec at 1 2.
    rewrite last_cons in Hlast.
    rewrite coalesce_from_app by exact Hlast.
    rewrite coalesce_from_group by assumption. reflexivity.
Qed.

(** *** The output of a pass *)

Lemma coalesce_from_fixed (rest : list compact_puzzle) :
  forall a, exists y ys,
    coalesce_from MOVE_MASK a rest = y :: ys
    /\ cfg y = cfg a
    /\ coalesce_from MOVE_MASK y ys = y :: ys.
Proof.
  induction rest as [| b rest IH]; intros a.
  - exists a, []. repeat split; reflexivity.
  - simpl. destruct (same a b) eqn:Hab.
    + destruct (IH (merge a b)) as (y & ys & E & Hc & Hfix).
      exists y, ys. repeat split; try assumption.
      rewrite Hc. apply cfg_merge. exact Hab.
    + destruct (IH b) as (y & ys & E & Hc & Hfix).
      exists a, (y :: ys). rewrite E. repeat split.
      simpl. rewrite (same_of_cfg a a y b eq_refl Hc), Hab, Hfix. reflexivity.
Qed.

(** C6.  Coalescing the output of [coalesce] gives that output back. *)
Theorem coalesce_idempotent (input : list compact_puzzle) :
  exists out,
    coalesce_out MOVE_MASK input = Some out
    /\ coalesce_out MOVE_MASK out = Some out.
Proof.
  exists (coalesce_spec MOVE_MASK input). rewrite !coalesce_out_spec.
  split; [reflexivity | f_equal].
  destruct input as [| a rest]; [reflexivity |]. simpl.
  destruct (coalesce_from_fixed rest a) as (y & ys & E & _ & Hfix).
  rewrite E. exact Hfix.
Qed.

(** C10.  On an empty input, when the first read meets the end of the
    file (the schedule of failures is empty or starts with a
    success), [coalesce] returns after that one read and writes
    nothing; on an input with at least one record it writes at least
    one record. *)
Theorem coalesce_empty_input :
  (forall outfile evs err out,
      coalesce MOVE_MASK outfile (FILE_of []) (mkEnv [] evs err out)
      = Ret (outfile, FILE_of []) (mkEnv [] (evs ++ [(Fread, false)]) err out))
  /\ (forall outfile fs evs err out,
        coalesce MOVE_MASK outfile (FILE_of []) (mkEnv (false :: fs) evs err out)
        = Ret (outfile, FILE_of []) (mkEnv fs (evs ++ [(Fread, false)]) err out))
  /\ coalesce_out MOVE_MASK [] = Some []
  /\ (forall a rest, exists r out,
        coalesce_out MOVE_MASK (a :: rest) = Some (r :: out)).
Proof.
  split; [intros; reflexivity | split; [intros; reflexivity | split; [reflexivity |]]].
  intros a rest. rewrite coalesce_out_spec. simpl.
  destruct (coalesce_from_fixed rest a) as (y & ys & E & _).
  exists y, ys. rewrite E. reflexivity.
Qed.

End CoalesceFacts.

(** ** Expansion and distribution *)

Lemma bind_ret_eq {A B} (m : M A) (k : A -> M B) (a : A) (e e1 : env) :
  m e = Ret a e1 -> bind m k e = k a e1.
Proof. intros H. unfold bind. rewrite H. reflexivity. Qed.

Lemma bind_undefined_eq {A B} (m : M A) (k : A -> M B) (e : env) :
  m e = Undefined -> bind m k e = Undefined.
Proof. intros H. unfold bind. rewrite H. reflexivity. Qed.

Lemma bind_Ret_inv {A B} (m : M A) (k : A -> M B) (e e' : env) (b : B) :
  bind m k e = Ret b e' -> exists a e1, m e = Ret a e1 /\ k a e1 = Ret b e'.
Proof.
  unfold bind. destruct (m e) as [a e1 | | |]; intros H; try discriminate.
  exists a, e1. split; [reflexivity | exact H].
Qed.

(** What [getpuzzle] has read when it returns. *)
Lemma getpuzzle_Ret (f f1 : FILE) (r : option compact_puzzle) (e e1 : env) :
  getpuzzle f e = Ret (r, f1) e1 ->
  match r with
  | Some cp => unread f = cp :: unread f1
  | None => unread f = [] /\ f1 = f
  end.
Proof.
  unfold getpuzzle, fread, bind, syscall, ret, perror, exit. simpl.
  destruct (hd false (faults e)); simpl; [discriminate |].
  destruct (unread f) as [| cp rest]; simpl.
  - destruct (ferror f); [discriminate |].
    intros H. injection H as <- <- _. split; reflexivity.
  - intros H. injection H as <- <- _. reflexivity.
Qed.

(** The reading loop around a body that leaves the state as it is
    whenever it returns. *)
Lemma while_getpuzzle_Ret {St : Type} (body : compact_puzzle -> St -> M St)
    (P : compact_puzzle -> Prop) :
  (forall cp s e s' e', body cp s e = Ret s' e' -> s' = s /\ P cp) ->
  forall fuel infile s e s' infile' e',
    while_getpuzzle fuel body infile s e = Ret (s', infile') e' ->
    s' = s /\ Forall P (unread infile).
Proof.
  intros Hbody. induction fuel as [| fuel IH]; intros infile s e s' infile' e' H;
    [discriminate |].
  cbn [while_getpuzzle] in H.
  apply bind_Ret_inv in H as ([r f1] & e1 & Hget & H).
  apply getpuzzle_Ret in Hget. destruct r as [cp |].
  - apply bind_Ret_inv in H as (s1 & e2 & Hb & H).
    apply Hbody in Hb as [-> Hcp]. apply IH in H as [-> Hrest].
    split; [reflexivity |]. rewrite Hget. apply List.Forall_cons; assumption.
  - destruct Hget as [Hu _]. injection H as <- _ _.
    split; [reflexivity |]. rewrite Hu. apply List.Forall_nil.
Qed.

Lemma for_each_Ret {St : Type} (body : nat -> St -> M St) :
  (forall loc s e s' e', body loc s e = Ret s' e' -> s' = s) ->
  forall locs s e s' e', for_each locs body s e = Ret s' e' -> s' = s.
Proof.
  intros Hbody. induction locs as [| loc locs IH]; intros s e s' e' H.
  - injection H as <- _. reflexivity.
  - cbn [for_each] in H. apply bind_Ret_inv in H as (s1 & e1 & Hb & H).
    apply Hbody in Hb as ->. apply IH in H. exact H.
Qed.

Lemma returns_makerdxfiles (dir : string) (round : nat) :
  returns (makerdxfiles dir round) (replicate TILE_COUNT empty_FILE).
Proof.
  unfold makerdxfiles.
  change (replicate TILE_COUNT empty_FILE)
    with (fold_left (fun (fs : list FILE) (_ : nat) => fs ++ [empty_FILE])
            (seq 0 TILE_COUNT) []).
  apply (returns_for_each (fun fs => fs) _ _ (fun _ => True)); [| exact I].
  intros loc a _ _. split; [| exact I].
  eapply returns_bind; [apply returns_fopen | apply returns_ret].
Qed.

(** The streams [makerdxfiles] hands over are those of new files. *)
Lemma makerdxfiles_Ret (dir : string) (round : nat) (e e' : env) (fs : list FILE) :
  makerdxfiles dir round e = Ret fs e' -> fs = replicate TILE_COUNT empty_FILE.
Proof.
  unfold makerdxfiles. intros H.
  assert (Hloop : forall locs acc e0 fs0 e1,
             for_each locs
               (fun i files =>
                  let pathbuf := rdxpath dir round i in
                  let* f := fopen pathbuf in
                  match f with
                  | None => let* _ := perror pathbuf in exit EXIT_FAILURE
                  | Some f => ret (files ++ [f])
                  end) acc e0 = Ret fs0 e1 ->
             fs0 = acc ++ replicate (length locs) empty_FILE).
  { induction locs as [| loc locs IH]; intros acc e0 fs0 e1 H0.
    - injection H0 as <- _. rewrite app_nil_r. reflexivity.
    - cbn [for_each] in H0. apply bind_Ret_inv in H0 as (fs1 & e2 & Hb & H0).
      apply IH in H0. subst fs0.
      unfold fopen, bind, syscall, ret, perror, exit in Hb. simpl in Hb.
      destruct (hd false (faults e0)); [discriminate |].
      injection Hb as <- _. rewrite <- app_assoc. reflexivity. }
  apply Hloop in H. exact H.
Qed.

Section BucketFacts.

Variable MOVE_MASK : Z.
Variable puzzle : Type.
Variable tiles : puzzle -> nat -> nat.
Variable unpack_puzzle : compact_puzzle -> puzzle.
Variable pack_puzzle_masked : puzzle -> nat -> compact_puzzle.
Variable move_mask : compact_puzzle -> Z.
Variable zero_location : puzzle -> nat.
Variable move_count : nat -> nat.
Variable get_moves : nat -> list nat.
Variable move : puzzle -> nat -> puzzle.

Local Abbreviation distribute' := (distribute puzzle tiles unpack_puzzle).
Local Abbreviation drain_step' := (drain_step puzzle tiles unpack_puzzle).
Local Abbreviation rounds' := (rounds puzzle tiles unpack_puzzle).
Local Abbreviation open_moves' :=
  (open_moves puzzle unpack_puzzle move_mask zero_location move_count).
Local Abbreviation expand_step' :=
  (expand_step puzzle tiles pack_puzzle_masked move).
Local Abbreviation expandpuzzle' :=
  (expandpuzzle puzzle tiles unpack_puzzle pack_puzzle_masked move_mask
     zero_location move_count get_moves move).
Local Abbreviation expround_sort' :=
  (expround_sort puzzle tiles unpack_puzzle pack_puzzle_masked move_mask
     zero_location move_count get_moves move).
Local Abbreviation expround' :=
  (expround MOVE_MASK puzzle tiles unpack_puzzle pack_puzzle_masked move_mask
     zero_location move_count get_moves move).

(** *** [expandpuzzle] *)

(** The loop over the moves either skips every move and leaves the
    state and the environment as they are, or is undefined; it is
    undefined as soon as one move is not masked. *)
Lemma expand_loop_outcome (movemask : Z) (zloc : nat) (moves locs : list nat) :
  forall p fs e,
    (for_each locs (expand_step' movemask zloc moves) (p, fs) e = Ret (p, fs) e
     /\ Forall (fun i => unmasked movemask i = false) locs)
    \/ for_each locs (expand_step' movemask zloc moves) (p, fs) e = Undefined.
Proof.
  induction locs as [| i locs IH]; intros p fs e.
  - left. split; [reflexivity | apply List.Forall_nil].
  - cbn [for_each].
    assert (Hstep : (expand_step' movemask zloc moves i (p, fs) e = Ret (p, fs) e
                     /\ unmasked movemask i = false)
                    \/ expand_step' movemask zloc moves i (p, fs) e = Undefined).
    { unfold expand_step, unmasked. destruct (31 <=? i); [right; reflexivity |].
      destruct (Z.land movemask (Z.shiftl 1 (Z.of_nat i)) =? 0)%Z;
        [right; reflexivity | left; split; reflexivity]. }
    destruct Hstep as [[Hs Hi] | Hs].
    + rewrite (bind_ret_eq _ _ _ _ _ Hs).
      destruct (IH p fs e) as [[Hr Hall] | Hu]; [left | right; exact Hu].
      split; [exact Hr | apply List.Forall_cons; assumption].
    + right. apply bind_undefined_eq. exact Hs.
Qed.

Lemma open_moves_masked (cp : compact_puzzle) :
  Forall (fun i => unmasked (move_mask cp) i = false)
    (seq 0 (move_count (zero_location (unpack_puzzle cp)))) ->
  open_moves' cp = [].
Proof.
  unfold open_moves.
  induction (seq 0 (move_count (zero_location (unpack_puzzle cp)))) as [| i l IH];
    intros H; [reflexivity |].
  apply List.Forall_cons_iff in H as [Hi Hl]. simpl. rewrite Hi. apply IH. exact Hl.
Qed.

Lemma expandpuzzle_outcome (outfiles : list FILE) (cp : compact_puzzle) (e : env) :
  (expandpuzzle' outfiles cp e = Ret outfiles e /\ open_moves' cp = [])
  \/ expandpuzzle' outfiles cp e = Undefined.
Proof.
  unfold expandpuzzle.
  destruct (expand_loop_outcome (move_mask cp) (zero_location (unpack_puzzle cp))
              (get_moves (zero_location (unpack_puzzle cp)))
              (seq 0 (move_count (zero_location (unpack_puzzle cp))))
              (unpack_puzzle cp) outfiles e) as [[Hr Hall] | Hu].
  - left. split; [| apply open_moves_masked; exact Hall].
    rewrite (bind_ret_eq _ _ _ _ _ Hr). reflexivity.
  - right. apply bind_undefined_eq. exact Hu.
Qed.

(** C3.  [expandpuzzle] writes no child.  Line 115 hands
    [outfiles + p.tiles[TILE_COUNT - 1]], the address of a slot of the
    array of buckets, to [putpuzzle] as its stream: for a record with
    a move that is not masked the call is undefined at the first such
    move, in every environment and whatever the buckets are; when
    [expandpuzzle] returns, the record had no such move, and the
    buckets and the environment are as they were.  It never ends the
    program with a status either. *)
Theorem expandpuzzle_writes_no_child (outfiles : list FILE) (cp : compact_puzzle)
    (e : env) :
  (open_moves' cp <> [] -> expandpuzzle' outfiles cp e = Undefined)
  /\ (forall r e', expandpuzzle' outfiles cp e = Ret r e' ->
        r = outfiles /\ e' = e /\ open_moves' cp = [])
  /\ (forall status e', expandpuzzle' outfiles cp e <> Exited status e').
Proof.
  destruct (expandpuzzle_outcome outfiles cp e) as [[Hr Hopen] | Hu].
  - rewrite Hr. split; [| split].
    + intros H. contradiction.
    + intros r e' H. injection H as <- <-. repeat split; [exact Hopen].
    + intros status e'. discriminate.
  - rewrite Hu. split; [| split].
    + intros _. reflexivity.
    + intros r e'. discriminate.
    + intros status e'. discriminate.
Qed.

(** *** [distribute] and the rounds *)

Lemma distribute_Ret (outfiles : list FILE) (infile : FILE) (t : nat)
    (e e' : env) (fs : list FILE) (infile' : FILE) :
  distribute' outfiles infile t e = Ret (fs, infile') e' ->
  fs = outfiles /\ unread infile = [].
Proof.
  unfold distribute. intros H.
  apply (while_getpuzzle_Ret _ (fun _ => False)) in H as [-> Hall].
  - split; [reflexivity |]. destruct (unread infile) as [| cp l]; [reflexivity |].
    apply List.Forall_inv in Hall. contradiction.
  - intros cp s e0 s' e1 Hb. discriminate.
Qed.


Lemma drain_step_Ret (dir : string) (round : nat) (old : list FILE) (loc : nat)
    (fs fs' : list FILE) (e e' : env) :
  drain_step' dir round old loc fs e = Ret fs' e' -> fs' = fs.
Proof.
  unfold drain_step. destruct (old !! loc) as [f |]; [| discriminate].
  intros H. apply bind_Ret_inv in H as ([fs1 f1] & e1 & Hd & H).
  apply distribute_Ret in Hd as [-> _].
  apply bind_Ret_inv in H as (x & e2 & _ & H).
  apply bind_Ret_inv in H as (y & e3 & _ & H).
  injection H as <- _. reflexivity.
Qed.

Lemma rounds_Ret (dir : string) (round : nat) :
  forall fs e fs' e',
    rounds' dir round fs e = Ret fs' e' ->
    (round = 0 /\ fs' = fs) \/ fs' = replicate TILE_COUNT empty_FILE.
Proof.
  induction round as [| r IH]; intros fs e fs' e' H.
  - injection H as <- _. left. split; reflexivity.
  - right. cbn [rounds] in H.
    apply bind_Ret_inv in H as (fresh & e1 & Hm & H).
    apply makerdxfiles_Ret in Hm. subst fresh.
    apply bind_Ret_inv in H as (fs1 & e2 & Hd & H).
    apply for_each_Ret in Hd; [| intros loc s e0 s' e3; apply drain_step_Ret].
    subst fs1. apply IH in H as [[_ ->] | ->]; reflexivity.
Qed.

Lemma expand_layer_undefined (layer : list compact_puzzle) :
  forall fuel b fs e,
    faults e = [] -> length layer < fuel ->
    Exists (fun cp => open_moves' cp <> []) layer ->
    while_getpuzzle fuel (fun cp rdxfiles => expandpuzzle' rdxfiles cp)
      (mkFILE b layer false) fs e = Undefined.
Proof.
  induction layer as [| cp layer IH]; intros fuel b fs e He Hfuel Hex.
  - apply List.Exists_nil in Hex. contradiction.
  - destruct fuel as [| fuel]; [simpl in Hfuel; lia |]. cbn [while_getpuzzle].
    destruct (returns_getpuzzle_cons b cp layer e He) as (e1 & Hget & He1).
    rewrite (bind_ret_eq _ _ _ _ _ Hget).
    destruct (expandpuzzle_outcome fs cp e1) as [[Hr Hopen] | Hu].
    + rewrite (bind_ret_eq _ _ _ _ _ Hr).
      apply IH; [exact He1 | simpl in Hfuel; lia |].
      apply List.Exists_cons in Hex as [Hcp | Hl]; [contradiction | exact Hl].
    + apply bind_undefined_eq. exact Hu.
Qed.

(** C1.  The distribution passes give no stream.  For every layer
    with a record that has a move that is not masked, when no library
    call fails, the run of the passes is undefined at the first child:
    [expandpuzzle] hands the address of a slot of the array of buckets
    to [putpuzzle] as its stream.  No final bucket is read, and
    [expround] as a whole is undefined. *)
Theorem expround_sort_undefined (layer : list compact_puzzle) (outfile : FILE)
    (dir : string) (e : env) :
  faults e = [] ->
  Exists (fun cp => open_moves' cp <> []) layer ->
  expround_sort' (FILE_of layer) dir e = Undefined
  /\ expround' outfile (FILE_of layer) dir e = Undefined.
Proof.
  intros He Hex.
  assert (Hsort : expround_sort' (FILE_of layer) dir e = Undefined).
  { unfold expround_sort.
    destruct (returns_makerdxfiles dir (TILE_COUNT - 2) e He) as (e1 & Hm & He1).
    rewrite (bind_ret_eq _ _ _ _ _ Hm).
    apply bind_undefined_eq. unfold FILE_of, fuel_for. cbn [unread].
    apply expand_layer_undefined; [exact He1 | lia | exact Hex]. }
  split; [exact Hsort |].
  unfold expround. apply bind_undefined_eq. exact Hsort.
Qed.

(** C4.  The final buckets hold no record.  Whatever the layer file,
    the directory and the failures of library calls: when the
    distribution passes have run to their end, every final bucket is
    the stream of a new, empty file, so the stream read from them in
    the order of [loc] is empty; and no record of the layer had a
    move that was not masked, that is, a child.  The children of a
    layer never reach the stream that [coalesce] reads. *)
Theorem final_buckets_hold_no_record (infile infile' : FILE) (dir : string)
    (e e' : env) (rdxfiles : list FILE) :
  expround_sort' infile dir e = Ret (rdxfiles, infile') e' ->
  rdxfiles = replicate TILE_COUNT empty_FILE
  /\ concat (map records rdxfiles) = []
  /\ Forall (fun cp => open_moves' cp = []) (unread infile).
Proof.
  unfold expround_sort. intros H.
  apply bind_Ret_inv in H as (fs0 & e1 & _ & H).
  apply bind_Ret_inv in H as ([fs1 infile1] & e2 & Hloop & H).
  apply bind_Ret_inv in H as (fs2 & e3 & Hrounds & H).
  injection H as <- _ _.
  apply (while_getpuzzle_Ret _ (fun cp => open_moves' cp = [])) in Hloop
    as [_ Hall].
  - apply rounds_Ret in Hrounds as [[Hround _] | ->]; [discriminate |].
    split; [reflexivity |]. split; [reflexivity | exact Hall].
  - intros cp s e0 s' e4 Hb.
    destruct (expandpuzzle_outcome s cp e0) as [[Hr Hopen] | Hu].
    + rewrite Hr in Hb. injection Hb as <- _. split; [reflexivity | exact Hopen].
    + rewrite Hu in Hb. discriminate.
Qed.

(** *** Layers without children *)

Lemma returns_distribute_eof (fs : list FILE) (b : list compact_puzzle) (t : nat) :
  returns (distribute' fs (mkFILE b [] false) t) (fs, mkFILE b [] false).
Proof.
  unfold distribute, fuel_for. cbn [unread length while_getpuzzle].
  eapply returns_bind; [apply returns_getpuzzle_nil | apply returns_ret].
Qed.

Lemma returns_rounds_empty (dir : string) (round : nat) :
  returns (rounds' dir round (replicate TILE_COUNT empty_FILE))
          (replicate TILE_COUNT empty_FILE).
Proof.
  induction round as [| r IH]; [apply returns_ret |].
  cbn [rounds].
  eapply returns_bind; [apply returns_makerdxfiles |].
  eapply returns_bind; [| exact IH].
  pose proof (returns_for_each (fun fs : list FILE => fs)
                (drain_step' dir (S r) (replicate TILE_COUNT empty_FILE))
                (fun fs _ => fs) (fun _ => True) (seq 0 TILE_COUNT)) as Hfe.
  assert (Hfold : forall (locs : list nat) (a : list FILE),
             fold_left (fun fs _ => fs) locs a = a)
    by (induction locs as [| x locs IHl]; intros a; [reflexivity | apply IHl]).
  rewrite <- (Hfold (seq 0 TILE_COUNT) (replicate TILE_COUNT empty_FILE)) at 3.
  apply Hfe; [| exact I].
  intros loc a Hloc _. split; [| exact I].
  apply in_seq in Hloc. unfold drain_step.
  rewrite lookup_replicate_2 by lia.
  eapply returns_bind; [apply (returns_distribute_eof a [] (S r - 1)) |].
  eapply returns_bind; [apply returns_fclose |].
  eapply returns_bind; [apply returns_removerdxfile | apply returns_ret].
Qed.

End BucketFacts.

(** ** Failures of library calls *)

Lemma fail_stop_with_fail_stop {A} (P : A -> Prop) (m : M A) :
  fail_stop_with P m -> fail_stop m.
Proof.
  intros H e. specialize (H e). destruct (m e); try exact H.
  destruct H as [_ H]. exact H.
Qed.

Lemma fsw_weaken {A} (P Q : A -> Prop) (m : M A) :
  (forall a, P a -> Q a) -> fail_stop_with P m -> fail_stop_with Q m.
Proof.
  intros HPQ H e. specialize (H e). destruct (m e); try exact H.
  destruct H as [Ha H]. split; [apply HPQ; exact Ha | exact H].
Qed.

Lemma fsw_ret {A} (P : A -> Prop) (a : A) : P a -> fail_stop_with P (ret a).
Proof.
  intros Ha e. simpl. split; [exact Ha |].
  exists []. rewrite app_nil_r. repeat split. constructor.
Qed.

Lemma fsw_undefined {A} (P : A -> Prop) : fail_stop_with P (@undefined A).
Proof. intros e. exact I. Qed.

Lemma fsw_bind {A B} (P : A -> Prop) (Q : B -> Prop) (m : M A) (k : A -> M B) :
  fail_stop_with P m ->
  (forall a, P a -> fail_stop_with Q (k a)) ->
  fail_stop_with Q (bind m k).
Proof.
  intros Hm Hk e. unfold bind. specialize (Hm e).
  destruct (m e) as [a e1 | st e1 | |]; try exact Hm.
  destruct Hm as (Ha & evs1 & Hev1 & Hp1 & Herr1).
  specialize (Hk a Ha e1).
  destruct (k a e1) as [b e2 | st e2 | |]; try exact Hk.
  - destruct Hk as (Hb & evs2 & Hev2 & Hp2 & Herr2).
    split; [exact Hb |]. exists (evs1 ++ evs2).
    rewrite Hev2, Hev1, Herr2, Herr1, app_assoc.
    repeat split. apply Forall_app. split; assumption.
  - destruct Hk as (Hs & evs2 & op & Hev2 & Hp2 & Hop & Herr2).
    split; [exact Hs |]. exists (evs1 ++ evs2), op.
    rewrite Hev2, Hev1, Herr2, Herr1, !app_assoc.
    repeat split; [| exact Hop]. apply Forall_app. split; assumption.
Qed.

Lemma fsw_getpuzzle (f : FILE) :
  clean f ->
  fail_stop_with
    (fun rf => clean (snd rf)
               /\ match fst rf with
                  | Some _ => length (unread (snd rf)) < length (unread f)
                  | None => True
                  end)
    (getpuzzle f).
Proof.
  intros Hf e. unfold clean in Hf.
  unfold getpuzzle, fread, bind, syscall, ret, perror, exit.
  destruct (hd false (faults e)); simpl.
  - split; [reflexivity |]. exists [], Fread. repeat split. constructor.
  - destruct (unread f) as [| cp rest] eqn:Hu; simpl.
    + rewrite Hf. simpl. split; [split; [exact Hf | exact I] |].
      exists [(Fread, false)]. repeat split.
      constructor; [intros H; discriminate | constructor].
    + split; [split; [exact Hf | simpl; lia] |].
      exists [(Fread, false)]. repeat split.
      constructor; [intros H; discriminate | constructor].
Qed.

Lemma fsw_putpuzzle (f : FILE) (cp : compact_puzzle) :
  clean f -> fail_stop_with clean (putpuzzle f cp).
Proof.
  intros Hf e. unfold putpuzzle, fwrite, bind, syscall, ret, perror, exit.
  destruct (hd false (faults e)); simpl.
  - split; [reflexivity |]. exists [], Fwrite. repeat split. constructor.
  - split; [exact Hf |]. exists [(Fwrite, false)]. repeat split.
    constructor; [intros H; discriminate | constructor].
Qed.

Lemma fsw_fclose (f : FILE) : fail_stop_with (fun _ => True) (fclose f).
Proof.
  intros e. unfold fclose, bind, syscall, ret. simpl.
  split; [exact I |]. eexists. repeat split.
  constructor; [intros _; reflexivity | constructor].
Qed.

Lemma fsw_removerdxfile (dir : string) (round loc : nat) :
  fail_stop_with (fun _ => True) (removerdxfile dir round loc).
Proof.
  intros e. unfold removerdxfile, remove, bind, syscall, ret. simpl.
  split; [exact I |]. eexists. repeat split.
  constructor; [intros _; reflexivity | constructor].
Qed.

Lemma fsw_while_getpuzzle {St : Type} (I : St -> Prop)
    (body : compact_puzzle -> St -> M St) :
  (forall cp s, I s -> fail_stop_with I (body cp s)) ->
  forall fuel infile s,
    clean infile -> length (unread infile) < fuel -> I s ->
    fail_stop_with (fun sf => I (fst sf) /\ clean (snd sf))
      (while_getpuzzle fuel body infile s).
Proof.
  intros Hbody. induction fuel as [| n IH]; intros infile s Hc Hfuel Hs; [lia |].
  simpl. eapply fsw_bind; [apply fsw_getpuzzle; exact Hc |].
  intros [r f'] [Hc' Hlen]. simpl in *. destruct r as [cp |].
  - eapply fsw_bind; [apply Hbody; exact Hs |].
    intros s' Hs'. apply IH; [exact Hc' | lia | exact Hs'].
  - apply fsw_ret. split; assumption.
Qed.

Lemma fsw_for_each {St : Type} (I : St -> Prop) (body : nat -> St -> M St)
    (locs : list nat) :
  (forall loc s, I s -> fail_stop_with I (body loc s)) ->
  forall s, I s -> fail_stop_with I (for_each locs body s).
Proof.
  intros Hbody. induction locs as [| loc locs IH]; intros s Hs; simpl.
  - apply fsw_ret. exact Hs.
  - eapply fsw_bind; [apply Hbody; exact Hs |]. exact IH.
Qed.

Lemma fsw_putpuzzle_at (outfiles : list FILE) (k : nat) (cp : compact_puzzle) :
  fail_stop_with (Forall clean) (putpuzzle_at outfiles k cp).
Proof. apply fsw_undefined. Qed.

Lemma fsw_makerdxfiles (dir : string) (round : nat) :
  fail_stop_with (Forall clean) (makerdxfiles dir round).
Proof.
  unfold makerdxfiles. apply fsw_for_each; [| constructor].
  intros loc fs Hfs e.
  unfold bind, fopen, syscall, ret, perror, exit. simpl.
  destruct (hd false (faults e)); simpl.
  - split; [reflexivity |]. exists [], (Fopen (rdxpath dir round loc)).
    repeat split. constructor.
  - split.
    + apply Forall_app. split; [exact Hfs |]. constructor; [reflexivity | constructor].
    + eexists. repeat split. constructor; [intros H; discriminate | constructor].
Qed.

Section FailStopFacts.

Variable MOVE_MASK : Z.
Variable puzzle : Type.
Variable tiles : puzzle -> nat -> nat.
Variable unpack_puzzle : compact_puzzle -> puzzle.
Variable pack_puzzle_masked : puzzle -> nat -> compact_puzzle.
Variable move_mask : compact_puzzle -> Z.
Variable zero_location : puzzle -> nat.
Variable move_count : nat -> nat.
Variable get_moves : nat -> list nat.
Variable move : puzzle -> nat -> puzzle.

Local Abbreviation coalesce' := (coalesce MOVE_MASK).
Local Abbreviation distribute' := (distribute puzzle tiles unpack_puzzle).
Local Abbreviation expandpuzzle' :=
  (expandpuzzle puzzle tiles unpack_puzzle pack_puzzle_masked move_mask
     zero_location move_count get_moves move).
Local Abbreviation rounds' := (rounds puzzle tiles unpack_puzzle).
Local Abbreviation expround_sort' :=
  (expround_sort puzzle tiles unpack_puzzle pack_puzzle_masked move_mask
     zero_location move_count get_moves move).
Local Abbreviation expround' :=
  (expround MOVE_MASK puzzle tiles unpack_puzzle pack_puzzle_masked move_mask
     zero_location move_count get_moves move).

Lemma fsw_coalesce (outfile infile : FILE) :
  clean outfile -> clean infile ->
  fail_stop_with (fun r => clean (fst r) /\ clean (snd r)) (coalesce' outfile infile).
Proof.
  intros Ho Hi. unfold coalesce.
  eapply fsw_bind; [apply fsw_getpuzzle; exact Hi |].
  intros [r infile1] [Hc _]. simpl in Hc. destruct r as [a |].
  - eapply fsw_bind.
    + apply (fsw_while_getpuzzle (fun s => clean (snd s))).
      * intros b [a' o] Ha'. simpl in Ha'. unfold coalesce_step.
        destruct (same_configuration MOVE_MASK a' b).
        -- apply fsw_ret. exact Ha'.
        -- eapply fsw_bind; [apply fsw_putpuzzle; exact Ha' |].
           intros o' Ho'. apply fsw_ret. exact Ho'.
      * exact Hc.
      * unfold fuel_for. lia.
      * exact Ho.
    + intros [[a' o1] infile2] [Ho1 Hi2]. cbn [fst snd] in *.
      eapply fsw_bind; [apply fsw_putpuzzle; exact Ho1 |].
      intros o2 Ho2. apply fsw_ret. split; assumption.
  - apply fsw_ret. split; assumption.
Qed.

Lemma fsw_expandpuzzle (outfiles : list FILE) (cp : compact_puzzle) :
  Forall clean outfiles ->
  fail_stop_with (Forall clean) (expandpuzzle' outfiles cp).
Proof.
  intros Hall. unfold expandpuzzle.
  eapply fsw_bind.
  - apply (fsw_for_each (fun s => Forall clean (snd s))); [| exact Hall].
    intros i [p fs] Hfs. simpl in Hfs. unfold expand_step.
    destruct (31 <=? i); [apply fsw_undefined |].
    destruct (Z.land (move_mask cp) (Z.shiftl 1 (Z.of_nat i)) =? 0)%Z.
    + eapply fsw_bind; [apply fsw_putpuzzle_at |].
      intros fs' Hfs'. apply fsw_ret. exact Hfs'.
    + apply fsw_ret. exact Hfs.
  - intros [p fs] Hfs. apply fsw_ret. exact Hfs.
Qed.

Lemma fsw_distribute (outfiles : list FILE) (infile : FILE) (t : nat) :
  Forall clean outfiles -> clean infile ->
  fail_stop_with (fun r => Forall clean (fst r) /\ clean (snd r))
    (distribute' outfiles infile t).
Proof.
  intros Hall Hi. unfold distribute.
  apply (fsw_while_getpuzzle (Forall clean)); [| exact Hi | unfold fuel_for; lia | exact Hall].
  intros cp fs Hfs. apply fsw_putpuzzle_at.
Qed.

Lemma fsw_drain_step (dir : string) (round : nat) (old : list FILE)
    (loc : nat) (new : list FILE) :
  Forall clean old -> Forall clean new ->
  fail_stop_with (Forall clean)
    (drain_step puzzle tiles unpack_puzzle dir round old loc new).
Proof.
  intros Hold Hnew. unfold drain_step.
  destruct (old !! loc) as [f |] eqn:Hf; [| apply fsw_undefined].
  eapply fsw_bind.
  - apply fsw_distribute; [exact Hnew |].
    rewrite Forall_forall in Hold. apply Hold.
    eapply list_elem_of_lookup_2. exact Hf.
  - intros [new' f'] [Hnew' _]. simpl in Hnew'.
    eapply fsw_bind; [apply fsw_fclose |]. intros _ _.
    eapply fsw_bind; [apply fsw_removerdxfile |]. intros _ _.
    apply fsw_ret. exact Hnew'.
Qed.

Lemma fsw_rounds (dir : string) (round : nat) :
  forall rdxfiles, Forall clean rdxfiles ->
    fail_stop_with (Forall clean) (rounds' dir round rdxfiles).
Proof.
  induction round as [| r IH]; intros rdxfiles Hall.
  - apply fsw_ret. exact Hall.
  - cbn [rounds].
    eapply fsw_bind; [apply fsw_makerdxfiles |]. intros fresh Hfresh.
    eapply fsw_bind.
    + apply (fsw_for_each (Forall clean)); [| exact Hfresh].
      intros loc s Hs. apply fsw_drain_step; assumption.
    + exact IH.
Qed.

Lemma fsw_expround_sort (infile : FILE) (dir : string) :
  clean infile ->
  fail_stop_with (fun r => Forall clean (fst r) /\ clean (snd r))
    (expround_sort' infile dir).
Proof.
  intros Hi. unfold expround_sort.
  eapply fsw_bind; [apply fsw_makerdxfiles |]. intros rdxfiles Hrdx.
  eapply fsw_bind.
  - apply (fsw_while_getpuzzle (Forall clean));
      [| exact Hi | unfold fuel_for; lia | exact Hrdx].
    intros cp fs Hfs. apply fsw_expandpuzzle. exact Hfs.
  - intros [rdx1 infile'] [Hrdx1 Hi']. cbn [fst snd] in *.
    eapply fsw_bind; [apply fsw_rounds; exact Hrdx1 |]. intros rdx2 Hrdx2.
    apply fsw_ret. split; assumption.
Qed.

Lemma fsw_expround (outfile infile : FILE) (dir : string) :
  clean outfile -> clean infile ->
  fail_stop_with (fun r => clean (fst r) /\ clean (snd r))
    (expround' outfile infile dir).
Proof.
  intros Ho Hi. unfold expround.
  eapply fsw_bind; [apply fsw_expround_sort; exact Hi |].
  intros [rdxfiles infile'] [Hrdx Hi']. cbn [fst snd] in *.
  eapply fsw_bind.
  - apply (fsw_for_each clean); [| exact Ho].
    intros loc o Hclean. unfold coalesce_step_loc.
    destruct (rdxfiles !! loc) as [f |] eqn:Hf; [| apply fsw_undefined].
    eapply fsw_bind.
    + apply fsw_coalesce; [exact Hclean |].
      rewrite Forall_forall in Hrdx. apply Hrdx.
      eapply list_elem_of_lookup_2. exact Hf.
    + intros [o' f'] [Ho' _]. simpl in Ho'.
      eapply fsw_bind; [apply fsw_fclose |]. intros _ _.
      eapply fsw_bind; [apply fsw_removerdxfile |]. intros _ _.
      apply fsw_ret. exact Ho'.
  - intros o' Ho'. apply fsw_ret. split; assumption.
Qed.

(** C8, as the code has it.  In [expround] and in the functions it
    is made of, a call of [fopen], [fread] or [fwrite] that fails
    ends the program with the status [EXIT_FAILURE] after one
    diagnostic that names the path (for [fopen]) or the operation
    ([getpuzzle], [putpuzzle]), and the program goes on only past
    calls that succeeded or whose result it does not look at.  The
    results of [fclose] and [remove] are not looked at:
    [removerdxfile] returns whatever [remove] answers, and writes
    no diagnostic. *)
Theorem checked_calls_fail_stop :
  (forall o l dir, fail_stop (expround' (FILE_of o) (FILE_of l) dir))
  /\ (forall l, fail_stop (getpuzzle (FILE_of l)))
  /\ (forall l cp, fail_stop (putpuzzle (FILE_of l) cp))
  /\ (forall dir round, fail_stop (makerdxfiles dir round))
  /\ (forall dir round loc e,
        exists e', removerdxfile dir round loc e = Ret tt e'
                   /\ stderr e' = stderr e)
  /\ EXIT_FAILURE <> 0%Z.
Proof.
  split; [| split; [| split; [| split; [| split]]]].
  - intros o l dir. eapply fail_stop_with_fail_stop.
    apply fsw_expround; reflexivity.
  - intros l. eapply fail_stop_with_fail_stop. apply fsw_getpuzzle. reflexivity.
  - intros l cp. eapply fail_stop_with_fail_stop. apply fsw_putpuzzle. reflexivity.
  - intros dir round. eapply fail_stop_with_fail_stop. apply fsw_makerdxfiles.
  - intros dir round loc e. eexists. split; reflexivity.
  - discriminate.
Qed.

End FailStopFacts.

(** ** The layer driver *)

Section DriverFacts.

Variable cps_round : list compact_puzzle -> list compact_puzzle -> list compact_puzzle.
Variable do_sampling : string -> list compact_puzzle -> Z -> Z -> list compact_puzzle.
Variable solved_cp : compact_puzzle.
Variable atoi : string -> Z.
Variable strtoull : string -> Z.

Local Abbreviation main' := (main cps_round do_sampling solved_cp atoi strtoull).
Local Abbreviation option_loop' := (option_loop atoi strtoull).
Local Abbreviation option_step' := (option_step atoi strtoull).
Local Abbreviation layer_loop' := (layer_loop cps_round do_sampling).
Local Abbreviation layer_lines' := (layer_lines cps_round do_sampling).
Local Abbreviation sample' := (sample do_sampling).
Local Abbreviation set_option' := (set_option atoi strtoull).
Local Abbreviation parsed' := (parsed atoi strtoull).


Lemma option_step_known (argv0 : string) (o : ascii * string) (opts : options) (e : env) :
  known_option o = true ->
  option_step' argv0 o opts e = Ret (set_option' opts o) e.
Proof.
  destruct o as [c arg]. unfold known_option, option_step, set_option.
  simpl. intros H.
  destruct (Ascii.eqb c "f"); [reflexivity |].
  destruct (Ascii.eqb c "l"); [reflexivity |].
  destruct (Ascii.eqb c "n"); [reflexivity |].
  destruct (Ascii.eqb c "s"); [reflexivity | discriminate].
Qed.

Lemma option_step_unknown (argv0 : string) (o : ascii * string) (opts : options) (e : env) :
  known_option o = false ->
  option_step' argv0 o opts e = usage_exit argv0 e.
Proof.
  destruct o as [c arg]. unfold known_option, option_step.
  simpl. intros H.
  destruct (Ascii.eqb c "f"); [discriminate |].
  destruct (Ascii.eqb c "l"); [discriminate |].
  destruct (Ascii.eqb c "n"); [discriminate |].
  destruct (Ascii.eqb c "s"); [discriminate | reflexivity].
Qed.

Lemma option_loop_known (argv0 : string) (got : list (ascii * string)) :
  forall opts e,
    forallb known_option got = true ->
    option_loop' argv0 got opts e = Ret (fold_left set_option' got opts) e.
Proof.
  induction got as [| o got IH]; intros opts e H; [reflexivity |].
  simpl in H. apply andb_true_iff in H as [Ho Hgot].
  cbn [option_loop fold_left]. unfold bind.
  rewrite option_step_known by exact Ho. apply IH. exact Hgot.
Qed.

Lemma option_loop_unknown (argv0 : string) (got : list (ascii * string)) :
  forall opts e,
    forallb known_option got = false ->
    option_loop' argv0 got opts e = usage_exit argv0 e.
Proof.
  induction got as [| o got IH]; intros opts e H; [discriminate |].
  cbn [option_loop]. unfold bind.
  destruct (known_option o) eqn:Ho.
  - rewrite option_step_known by exact Ho. apply IH.
    simpl in H. rewrite Ho in H. exact H.
  - rewrite option_step_unknown by exact Ho. reflexivity.
Qed.

Lemma layer_loop_runs (opts : options) (n : nat) :
  forall fuel i cps e,
    n = Z.to_nat (limit opts - i + 1) ->
    (limit opts < INT_MAX)%Z ->
    n < fuel ->
    layer_loop' fuel opts i cps e
    = Ret tt (mkEnv (faults e) (events e) (stderr e)
                (stdout e ++ layer_lines' opts n i cps)).
Proof.
  induction n as [| n IH]; intros fuel i cps e Hi Hmax Hfuel;
    (destruct fuel as [| fuel]; [lia |]); cbn [layer_loop layer_lines].
  - replace (i <=? limit opts)%Z with false by (symmetry; apply Z.leb_gt; lia).
    rewrite app_nil_r. destruct e; reflexivity.
  - replace (i <=? limit opts)%Z with true by (symmetry; apply Z.leb_le; lia).
    unfold bind, printf.
    replace (i =? INT_MAX)%Z with false by (symmetry; apply Z.eqb_neq; lia).
    rewrite IH by (simpl; lia). simpl. rewrite <- app_assoc. reflexivity.
Qed.

(** With the default limit the loop condition [i <= INT_MAX] cannot
    become false: the loop does not return, whatever the fuel. *)
Lemma layer_loop_default (opts : options) (fuel : nat) :
  forall i cps e,
    limit opts = INT_MAX -> (i <= INT_MAX)%Z ->
    layer_loop' fuel opts i cps e = NoFuel \/ layer_loop' fuel opts i cps e = Undefined.
Proof.
  induction fuel as [| fuel IH]; intros i cps e Hlimit Hi; [left; reflexivity |].
  cbn [layer_loop]. rewrite Hlimit.
  replace (i <=? INT_MAX)%Z with true by (symmetry; apply Z.leb_le; exact Hi).
  unfold bind, printf. destruct (Z.eqb_spec i INT_MAX) as [E | E].
  - right. reflexivity.
  - apply IH; [exact Hlimit | lia].
Qed.

(** C7, as the code has it.  A command line with an option
    character other than [f], [l], [n], [s], or with a number of
    operands other than one, ends the program with [EXIT_FAILURE]
    and the usage line on [stderr].  Otherwise, for a limit under
    [INT_MAX], [main] reports layer 0, then computes and reports
    exactly [limit] further layers (none when the limit is not
    positive), whatever their sizes, and returns the status 0. *)
Theorem main_computes_limit_layers (fuel : nat) (argv0 : string)
    (got : list (ascii * string)) (operands : list string) (e : env) :
  (well_formed_command got operands = false ->
     main' fuel argv0 got operands e
     = Exited EXIT_FAILURE
         (mkEnv (faults e) (events e) (stderr e ++ [usage_line argv0]) (stdout e)))
  /\ (well_formed_command got operands = true ->
      (limit (parsed' got) < INT_MAX)%Z ->
      Z.to_nat (limit (parsed' got)) < fuel ->
      let layer0 := sample' (parsed' got) [solved_cp] 0%Z in
      let lines := layer_lines' (parsed' got) (Z.to_nat (limit (parsed' got))) 1%Z layer0 in
      main' fuel argv0 got operands e
      = Ret 0%Z
          (mkEnv (faults e) (events e) (stderr e)
             (stdout e ++ ConfCount :: Layer 0 (length layer0) :: lines))
      /\ length lines = Z.to_nat (limit (parsed' got))).
Proof.
  unfold well_formed_command, main. split.
  - intros H. unfold bind.
    destruct (forallb known_option got) eqn:Hgot.
    + rewrite option_loop_known by exact Hgot. simpl in H. rewrite H. reflexivity.
    + rewrite option_loop_unknown by exact Hgot. reflexivity.
  - intros H Hmax Hfuel. apply andb_true_iff in H as [Hgot Hops].
    split.
    + unfold bind. rewrite option_loop_known by exact Hgot. rewrite Hops.
      fold (parsed' got). unfold ret, printf. cbn [stdout stderr faults events].
      rewrite (layer_loop_runs (parsed' got) (Z.to_nat (limit (parsed' got))))
        by (try assumption; f_equal; lia).
      cbn [stdout stderr faults events]. rewrite <- !app_assoc. reflexivity.
    + clear. generalize 1%Z (sample' (parsed' got) [solved_cp] 0%Z).
      induction (Z.to_nat (limit (parsed' got))) as [| n IH]; intros i cps;
        [reflexivity | simpl; rewrite IH; reflexivity].
Qed.

End DriverFacts.

(** ** The pattern database accessors *)

Section PDBFacts.

Variable tileset : Type.
Variable tileset_has : tileset -> nat -> bool.
Variable ZERO_TILE : nat.

Local Abbreviation patterndb' := (PDB.patterndb tileset).
Local Abbreviation pdb_entry_pointer' := (PDB.pdb_entry_pointer tileset tileset_has ZERO_TILE).
Local Abbreviation pdb_lookup' := (PDB.pdb_lookup tileset tileset_has ZERO_TILE).
Local Abbreviation pdb_conditional_update' :=
  (PDB.pdb_conditional_update tileset tileset_has ZERO_TILE).
Local Abbreviation fill_calls' := (PDB.fill_calls tileset tileset_has ZERO_TILE).
Local Abbreviation load' := (PDB.load tileset).
Local Abbreviation store' := (PDB.store tileset).

Lemma pointer_store (pdb : patterndb') (ptr : nat * nat) (byte : Z) (idx : PDB.index) :
  pdb_entry_pointer' (store' pdb ptr byte) idx = pdb_entry_pointer' pdb idx.
Proof.
  unfold PDB.pdb_entry_pointer, PDB.store.
  destruct (PDB.tables tileset pdb !! fst ptr); reflexivity.
Qed.

Lemma load_store (pdb : patterndb') (ptr : nat * nat) (cur byte : Z) :
  load' pdb ptr = Some cur -> load' (store' pdb ptr byte) ptr = Some byte.
Proof.
  unfold PDB.load, PDB.store. intros H.
  destruct (PDB.tables tileset pdb !! fst ptr) as [tbl |] eqn:Ht; [| discriminate].
  simpl. rewrite list_lookup_insert_eq by (eapply lookup_lt_Some; exact Ht).
  apply list_lookup_insert_eq. eapply lookup_lt_Some. exact H.
Qed.

Lemma load_store_other (pdb : patterndb') (ptr ptr' : nat * nat) (byte : Z) :
  ptr' <> ptr -> load' (store' pdb ptr byte) ptr' = load' pdb ptr'.
Proof.
  unfold PDB.load, PDB.store. intros Hne.
  destruct (PDB.tables tileset pdb !! fst ptr) as [tbl |] eqn:Ht; [| reflexivity].
  simpl. destruct (Nat.eq_dec (fst ptr') (fst ptr)) as [E | E].
  - rewrite E, Ht, list_lookup_insert_eq by (eapply lookup_lt_Some; exact Ht).
    apply list_lookup_insert_ne. intros E'. apply Hne.
    destruct ptr, ptr'; simpl in *; congruence.
  - rewrite list_lookup_insert_ne by congruence. reflexivity.
Qed.

Lemma conditional_update_hit (pdb : patterndb') (idx : PDB.index) (ptr : nat * nat)
    (expected desired : Z) :
  pdb_entry_pointer' pdb idx = Some ptr ->
  load' pdb ptr = Some (PDB.uchar expected) ->
  pdb_conditional_update' pdb idx expected desired
  = Some (1%Z, store' pdb ptr (PDB.uchar desired)).
Proof.
  intros Hp Hl. unfold PDB.pdb_conditional_update.
  rewrite Hp, Hl, Z.eqb_refl. reflexivity.
Qed.

Lemma conditional_update_miss (pdb : patterndb') (idx : PDB.index) (ptr : nat * nat)
    (cur expected desired : Z) :
  pdb_entry_pointer' pdb idx = Some ptr ->
  load' pdb ptr = Some cur ->
  cur <> PDB.uchar expected ->
  pdb_conditional_update' pdb idx expected desired = Some (0%Z, pdb).
Proof.
  intros Hp Hl Hne. unfold PDB.pdb_conditional_update.
  rewrite Hp, Hl. apply Z.eqb_neq in Hne. rewrite Hne. reflexivity.
Qed.

Lemma uchar_byte (x : Z) : (0 <= x < 256)%Z -> PDB.uchar x = x.
Proof. intros H. unfold PDB.uchar. apply Z.mod_small. exact H. Qed.

Lemma fill_calls_filled (ds : list Z) :
  forall (pdb : patterndb') (idx : PDB.index) (ptr : nat * nat) (cur : Z),
    pdb_entry_pointer' pdb idx = Some ptr ->
    load' pdb ptr = Some cur ->
    cur <> PDB.UNREACHED ->
    fill_calls' pdb idx ds = Some (map (fun _ => 0%Z) ds, pdb).
Proof.
  induction ds as [| d ds IH]; intros pdb idx ptr cur Hp Hl Hne; [reflexivity |].
  cbn [PDB.fill_calls map].
  rewrite (conditional_update_miss pdb idx ptr cur) by assumption.
  rewrite (IH pdb idx ptr cur) by assumption. reflexivity.
Qed.

(** C9.  [pdb_conditional_update] compares the byte of the entry
    with [expected]; when they are equal it stores [desired] there
    and returns 1, otherwise it returns 0 and leaves the table as it
    is.  Both are one step on the table.  From an entry that holds
    [UNREACHED], of the calls with [expected = UNREACHED] that offer
    distances, whatever their order, the first returns 1 and stores
    its distance, and every later one returns 0. *)
Theorem pdb_conditional_update_cas (pdb : patterndb') (idx : PDB.index)
    (ptr : nat * nat) (cur expected desired : Z) :
  pdb_entry_pointer' pdb idx = Some ptr ->
  load' pdb ptr = Some cur ->
  (0 <= expected < 256)%Z ->
  (0 <= desired < 256)%Z ->
  (cur = expected ->
     exists pdb',
       pdb_conditional_update' pdb idx expected desired = Some (1%Z, pdb')
       /\ pdb_lookup' pdb' idx = Some desired
       /\ forall ptr', ptr' <> ptr -> load' pdb' ptr' = load' pdb ptr')
  /\ (cur <> expected ->
      pdb_conditional_update' pdb idx expected desired = Some (0%Z, pdb))
  /\ (cur = PDB.UNREACHED ->
      forall d ds,
        Forall (fun d => 0 <= d < PDB.UNREACHED)%Z (d :: ds) ->
        exists pdb',
          fill_calls' pdb idx (d :: ds) = Some (1%Z :: map (fun _ => 0%Z) ds, pdb')
          /\ pdb_lookup' pdb' idx = Some d).
Proof.
  intros Hp Hl Hexp Hdes. split; [| split].
  - intros ->. exists (store' pdb ptr desired).
    rewrite (conditional_update_hit pdb idx ptr)
      by (try assumption; rewrite uchar_byte by assumption; exact Hl).
    rewrite (uchar_byte desired) by assumption.
    split; [reflexivity | split].
    + unfold PDB.pdb_lookup. rewrite pointer_store, Hp.
      eapply load_store. exact Hl.
    + intros ptr' Hne. apply load_store_other. exact Hne.
  - intros Hne. apply (conditional_update_miss pdb idx ptr cur); try assumption.
    rewrite uchar_byte by assumption. exact Hne.
  - intros -> d ds Hds. inversion Hds as [| ? ? Hd Hrest]; subst.
    unfold PDB.UNREACHED in *.
    exists (store' pdb ptr d). cbn [PDB.fill_calls].
    rewrite (conditional_update_hit pdb idx ptr) by (assumption || exact Hl).
    rewrite (uchar_byte d) by lia.
    rewrite (fill_calls_filled ds _ idx ptr d).
    + split; [reflexivity |].
      unfold PDB.pdb_lookup. rewrite pointer_store, Hp.
      eapply load_store. exact Hl.
    + rewrite pointer_store. exact Hp.
    + eapply load_store. exact Hl.
    + unfold PDB.UNREACHED. lia.
Qed.

End PDBFacts.

(** ** The code on the 5x5 board *)

Lemma coalesce_linear_pass_witness :
  configurations_adjacent Grid5.MOVE_MASK [Grid5.centre_cp; Grid5.child_a; Grid5.child_b]
  /\ one_per_configuration Grid5.MOVE_MASK
       [Grid5.centre_cp; Grid5.child_a; Grid5.child_b]
       [Grid5.centre_cp; CP (Z.lor (lo Grid5.solved_cp) 3) (hi Grid5.solved_cp)].
Proof.
  assert (H : configurations_adjacent Grid5.MOVE_MASK
                [Grid5.centre_cp; Grid5.child_a; Grid5.child_b])
    by (apply configurations_adjacentb_sound; vm_compute; reflexivity).
  split; [exact H |].
  apply (proj2 (coalesce_linear_pass Grid5.MOVE_MASK
                  [Grid5.centre_cp; Grid5.child_a; Grid5.child_b]) H).
  vm_compute. reflexivity.
Defined.

Lemma coalesce_mask_union_witness :
  exists r out_pre out_post,
    coalesce_out Grid5.MOVE_MASK [Grid5.centre_cp] = Some out_pre
    /\ coalesce_out Grid5.MOVE_MASK [Grid5.swapped_cp] = Some out_post
    /\ coalesce_out Grid5.MOVE_MASK
         ([Grid5.centre_cp] ++ [Grid5.child_a; Grid5.child_b] ++ [Grid5.swapped_cp])
       = Some (out_pre ++ r :: out_post)
    /\ hi r = hi Grid5.child_a
    /\ same_configuration Grid5.MOVE_MASK r Grid5.child_a = true
    /\ mask_bits Grid5.MOVE_MASK r
       = mask_union Grid5.MOVE_MASK [Grid5.child_a; Grid5.child_b].
Proof.
  apply (coalesce_mask_union Grid5.MOVE_MASK
           [Grid5.centre_cp] Grid5.child_a [Grid5.child_b] [Grid5.swapped_cp]).
  - constructor; [vm_compute; reflexivity | constructor].
  - right. vm_compute. reflexivity.
  - right. vm_compute. reflexivity.
Defined.

Lemma expandpuzzle_writes_no_child_witness :
  expandpuzzle Grid5.puzzle Grid5.tiles Grid5.unpack_puzzle Grid5.pack_puzzle_masked
    Grid5.move_mask Grid5.zero_location Grid5.move_count Grid5.get_moves Grid5.move
    (replicate TILE_COUNT empty_FILE) Grid5.centre_cp quiet_env
  = Undefined.
Proof.
  apply (proj1 (expandpuzzle_writes_no_child Grid5.puzzle Grid5.tiles
                  Grid5.unpack_puzzle Grid5.pack_puzzle_masked Grid5.move_mask
                  Grid5.zero_location Grid5.move_count Grid5.get_moves Grid5.move
                  (replicate TILE_COUNT empty_FILE) Grid5.centre_cp quiet_env)).
  vm_compute. discriminate.
Defined.

Lemma expround_sort_undefined_witness :
  expround_sort Grid5.puzzle Grid5.tiles Grid5.unpack_puzzle Grid5.pack_puzzle_masked
    Grid5.move_mask Grid5.zero_location Grid5.move_count Grid5.get_moves Grid5.move
    (FILE_of [Grid5.swapped_cp; Grid5.solved_cp]) "tmp" quiet_env
  = Undefined
  /\ expround Grid5.MOVE_MASK Grid5.puzzle Grid5.tiles Grid5.unpack_puzzle
       Grid5.pack_puzzle_masked Grid5.move_mask Grid5.zero_location Grid5.move_count
       Grid5.get_moves Grid5.move
       empty_FILE (FILE_of [Grid5.swapped_cp; Grid5.solved_cp]) "tmp" quiet_env
     = Undefined.
Proof.
  apply (expround_sort_undefined Grid5.MOVE_MASK Grid5.puzzle Grid5.tiles
           Grid5.unpack_puzzle Grid5.pack_puzzle_masked Grid5.move_mask
           Grid5.zero_location Grid5.move_count Grid5.get_moves Grid5.move
           [Grid5.swapped_cp; Grid5.solved_cp] empty_FILE "tmp" quiet_env).
  - reflexivity.
  - apply List.Exists_cons_hd. vm_compute. discriminate.
Defined.

Lemma final_buckets_hold_no_record_witness :
  exists rdxfiles infile' e',
    expround_sort Grid5.puzzle Grid5.tiles Grid5.unpack_puzzle
      Grid5.pack_puzzle_masked Grid5.move_mask Grid5.zero_location Grid5.move_count
      Grid5.get_moves Grid5.move
      (FILE_of [Grid5.masked_cp; Grid5.masked_cp]) "tmp" quiet_env
    = Ret (rdxfiles, infile') e'
    /\ rdxfiles = replicate TILE_COUNT empty_FILE
    /\ concat (map records rdxfiles) = []
    /\ Forall (fun cp => Grid5.open_moves cp = [])
         (unread (FILE_of [Grid5.masked_cp; Grid5.masked_cp])).
Proof.
  assert (E : exists rdxfiles infile' e',
             expround_sort Grid5.puzzle Grid5.tiles Grid5.unpack_puzzle
               Grid5.pack_puzzle_masked Grid5.move_mask Grid5.zero_location
               Grid5.move_count Grid5.get_moves Grid5.move
               (FILE_of [Grid5.masked_cp; Grid5.masked_cp]) "tmp" quiet_env
             = Ret (rdxfiles, infile') e')
    by (vm_compute; eexists; eexists; eexists; reflexivity).
  destruct E as (rdxfiles & infile' & e' & E).
  exists rdxfiles, infile', e'. split; [exact E |].
  exact (final_buckets_hold_no_record Grid5.puzzle Grid5.tiles Grid5.unpack_puzzle
           Grid5.pack_puzzle_masked Grid5.move_mask Grid5.zero_location
           Grid5.move_count Grid5.get_moves Grid5.move
           (FILE_of [Grid5.masked_cp; Grid5.masked_cp]) infile' "tmp"
           quiet_env e' rdxfiles E).
Defined.

(** The layer of the two parents of one child, [centre_cp] and its
    neighbour: the run of [expround] is undefined, and so is the run
    on the layer of the solved puzzle alone. *)
Example children_never_coalesced :
  Grid5.expround empty_FILE
    (FILE_of [Grid5.centre_cp; Grid5.solved_cp; Grid5.centre_cp]) "tmp" quiet_env
  = Undefined
  /\ Grid5.expround empty_FILE (FILE_of [Grid5.solved_cp]) "tmp" quiet_env = Undefined.
Proof. split; vm_compute; reflexivity. Qed.

(** C8, as stated, fails: on an empty layer, with the first [fclose]
    and the first [remove] failing, [expround] returns and has
    written nothing to [stderr]. *)
Lemma failed_fclose_and_remove_pass :
  match Grid5.expround empty_FILE (FILE_of []) "tmp"
          (mkEnv (repeat false 52 ++ [true; true]) [] [] []) with
  | Ret _ e' =>
      nth_error (events e') 52 = Some (Fclose, true)
      /\ nth_error (events e') 53 = Some (Remove "tmp-23-00.rdx", true)
      /\ stderr e' = []
  | _ => False
  end.
Proof. vm_compute. repeat split. Qed.

Lemma main_computes_limit_layers_witness :
  Grid5.driver 4 "puzzledistext" [("x"%char, "")] ["tmp"] quiet_env
  = Exited EXIT_FAILURE (mkEnv [] [] [usage_line "puzzledistext"] [])
  /\ Grid5.driver 4 "puzzledistext" [("l"%char, "3")] ["tmp"] quiet_env
     = Ret 0%Z (mkEnv [] [] []
                  [ConfCount; Layer 0 1; Layer 1 2; Layer 2 4; Layer 3 10]).
Proof.
  split.
  - apply (proj1 (main_computes_limit_layers Grid5.cps_round Grid5.no_sampling
                    Grid5.solved_cp Grid5.decimal Grid5.decimal
                    4 "puzzledistext" [("x"%char, "")] ["tmp"] quiet_env)).
    reflexivity.
  - refine (proj1 (proj2 (main_computes_limit_layers Grid5.cps_round Grid5.no_sampling
                    Grid5.solved_cp Grid5.decimal Grid5.decimal
                    4 "puzzledistext" [("l"%char, "3")] ["tmp"] quiet_env) _ _ _)).
    + reflexivity.
    + vm_compute. reflexivity.
    + vm_compute. lia.
Defined.

(** C7, as stated, fails: with a round that finds no successor and
    the limit 3, layer 1 is empty and [main] still goes on to report
    the layers 2 and 3. *)
Lemma main_reports_after_empty_layer :
  Grid5.barren_driver 4 "puzzledistext" [("l"%char, "3")] ["tmp"] quiet_env
  = Ret 0%Z (mkEnv [] [] []
               [ConfCount; Layer 0 1; Layer 1 0; Layer 2 0; Layer 3 0])
  /\ ~ stops_at_empty_layer
         [ConfCount; Layer 0 1; Layer 1 0; Layer 2 0; Layer 3 0].
Proof.
  split; [vm_compute; reflexivity |].
  intros H. specialize (H [ConfCount; Layer 0 1] 1%Z [Layer 2 0; Layer 3 0] eq_refl).
  discriminate.
Qed.

Lemma pdb_conditional_update_cas_witness :
  exists pdb',
    Grid5.fill_calls Grid5.cleared_pdb (PDB.mkIndex 0 2 0) [7; 3; 7]%Z
    = Some ([1; 0; 0]%Z, pdb')
    /\ PDB.pdb_lookup Grid5.tileset Grid5.tileset_has Grid5.ZERO_TILE pdb'
         (PDB.mkIndex 0 2 0) = Some 7%Z.
Proof.
  refine (proj2 (proj2 (pdb_conditional_update_cas Grid5.tileset Grid5.tileset_has
                          Grid5.ZERO_TILE Grid5.cleared_pdb (PDB.mkIndex 0 2 0)
                          (0, 2) 255%Z 255%Z 7%Z _ _ _ _)) _ 7%Z [3; 7]%Z _).
  - reflexivity.
  - reflexivity.
  - lia.
  - lia.
  - reflexivity.
  - repeat constructor; unfold PDB.UNREACHED; lia.
Defined.

(** Runs with one failing library call: the third [fopen] and the
    first [fread] of [expround] on the layer of the solved puzzle,
    and the first [fwrite] of [coalesce]. *)
Example failed_fopen_exits :
  Grid5.expround empty_FILE (FILE_of [Grid5.solved_cp]) "tmp"
    (mkEnv [false; false; true] [] [] [])
  = Exited EXIT_FAILURE
      (mkEnv []
         [(Fopen "tmp-23-00.rdx", false); (Fopen "tmp-23-01.rdx", false);
          (Fopen "tmp-23-02.rdx", true)]
         ["tmp-23-02.rdx"] []).
Proof. vm_compute. reflexivity. Qed.

Example failed_fread_exits :
  match Grid5.expround empty_FILE (FILE_of [Grid5.solved_cp]) "tmp"
          (mkEnv (repeat false 25 ++ [true]) [] [] []) with
  | Exited status e' =>
      status = EXIT_FAILURE /\ stderr e' = ["getpuzzle"]
      /\ nth_error (events e') 25 = Some (Fread, true)
      /\ length (events e') = 26
  | _ => False
  end.
Proof. vm_compute. repeat split. Qed.

Example failed_fwrite_exits :
  Grid5.coalesce empty_FILE (FILE_of [Grid5.solved_cp; Grid5.swapped_cp])
    (mkEnv [false; false; true] [] [] [])
  = Exited EXIT_FAILURE
      (mkEnv [] [(Fread, false); (Fread, false); (Fwrite, true)] ["putpuzzle"] []).
Proof. vm_compute. reflexivity. Qed.

(** The layers 1 to 5 of the 5x5 board. *)
Example first_layers :
  Grid5.driver 6 "puzzledistext" [("l"%char, "5")] ["tmp"] quiet_env
  = Ret 0%Z (mkEnv [] [] []
               [ConfCount; Layer 0 1; Layer 1 2; Layer 2 4; Layer 3 10;
                Layer 4 26; Layer 5 64]).
Proof. vm_compute. reflexivity. Qed.

(** * Further facts *)

(** ** The pattern database: entries, updates, invariants *)

Section PDBMore.

Variable tileset : Type.
Variable tileset_has : tileset -> nat -> bool.
Variable ZERO_TILE : nat.

Local Abbreviation patterndb' := (PDB.patterndb tileset).
Local Abbreviation pdb_entry_pointer' := (PDB.pdb_entry_pointer tileset tileset_has ZERO_TILE).
Local Abbreviation pdb_lookup' := (PDB.pdb_lookup tileset tileset_has ZERO_TILE).
Local Abbreviation pdb_update' := (PDB.pdb_update tileset tileset_has ZERO_TILE).
Local Abbreviation pdb_conditional_update' :=
  (PDB.pdb_conditional_update tileset tileset_has ZERO_TILE).
Local Abbreviation fill_calls' := (PDB.fill_calls tileset tileset_has ZERO_TILE).
Local Abbreviation load' := (PDB.load tileset).
Local Abbreviation store' := (PDB.store tileset).

(** X1.  [pdb_update] then [pdb_lookup]: the entry holds the distance
    narrowed to a byte, every entry at another address holds what it
    held, and the index data are untouched. *)
Theorem pdb_update_lookup (pdb pdb1 : patterndb') (idx : PDB.index) (dist : Z) :
  pdb_update' pdb idx dist = Some pdb1 ->
  pdb_lookup' pdb1 idx = Some (dist mod 256)%Z
  /\ (forall idx', pdb_entry_pointer' pdb idx' <> pdb_entry_pointer' pdb idx ->
        pdb_lookup' pdb1 idx' = pdb_lookup' pdb idx')
  /\ PDB.aux tileset pdb1 = PDB.aux tileset pdb.
Proof.
  unfold PDB.pdb_update, PDB.pdb_lookup. intros H.
  destruct (pdb_entry_pointer' pdb idx) as [ptr |] eqn:Hp; [| discriminate].
  destruct (load' pdb ptr) as [cur |] eqn:Hl; [| discriminate].
  injection H as <-. split; [| split].
  - rewrite pointer_store, Hp. eapply load_store. exact Hl.
  - intros idx' Hne. rewrite pointer_store.
    destruct (pdb_entry_pointer' pdb idx') as [ptr' |]; [| reflexivity].
    apply load_store_other. congruence.
  - unfold PDB.store. destruct (PDB.tables tileset pdb !! fst ptr); reflexivity.
Qed.

(** X2.  Different indices, different entries.  With the blank in
    the tile set, two different indices whose [eqidx] are below
    [n_eqclass] of their map rank and whose entries lie in the tables
    have different addresses: [pdb_update] at one of them sets its
    entry and leaves the entry of the other as it is. *)
Theorem pdb_entry_pointer_injective (pdb : patterndb') (i1 i2 : PDB.index)
    (t1 t2 : PDB.index_table) (b1 b2 : Z) :
  tileset_has (PDB.ts tileset (PDB.aux tileset pdb)) ZERO_TILE = true ->
  PDB.idxt tileset (PDB.aux tileset pdb) !! PDB.maprank i1 = Some t1 ->
  PDB.idxt tileset (PDB.aux tileset pdb) !! PDB.maprank i2 = Some t2 ->
  PDB.eqidx i1 < PDB.n_eqclass t1 ->
  PDB.eqidx i2 < PDB.n_eqclass t2 ->
  pdb_lookup' pdb i1 = Some b1 ->
  pdb_lookup' pdb i2 = Some b2 ->
  i1 <> i2 ->
  pdb_entry_pointer' pdb i1 <> pdb_entry_pointer' pdb i2
  /\ forall dist,
       exists pdb1,
         pdb_update' pdb i1 dist = Some pdb1
         /\ pdb_lookup' pdb1 i1 = Some (dist mod 256)%Z
         /\ pdb_lookup' pdb1 i2 = Some b2.
Proof.
  intros Hzero H1 H2 He1 He2 Hl1 Hl2 Hne.
  assert (Hptr : pdb_entry_pointer' pdb i1 <> pdb_entry_pointer' pdb i2).
  { unfold PDB.pdb_entry_pointer. rewrite Hzero, H1, H2.
    intros H. injection H as Hm Ho. apply Hne.
    destruct i1 as [m1 p1 e1], i2 as [m2 p2 e2]. simpl in *. subst m2.
    rewrite H1 in H2. injection H2 as <-.
    assert (p1 = p2) by nia. subst p2.
    assert (e1 = e2) by lia. subst e2. reflexivity. }
  split; [exact Hptr |].
  intros dist. unfold PDB.pdb_update, PDB.pdb_lookup in *.
  destruct (pdb_entry_pointer' pdb i1) as [ptr1 |] eqn:Hp1; [| discriminate].
  destruct (pdb_entry_pointer' pdb i2) as [ptr2 |] eqn:Hp2; [| discriminate].
  rewrite Hl1. eexists. split; [reflexivity |].
  rewrite !pointer_store, Hp1, Hp2. split.
  - eapply load_store. exact Hl1.
  - rewrite load_store_other by congruence. exact Hl2.
Qed.

Lemma store_shape (pdb : patterndb') (ptr : nat * nat) (byte : Z) :
  pdb_shape (store' pdb ptr byte) = pdb_shape pdb.
Proof.
  unfold pdb_shape, PDB.store.
  destruct (PDB.tables tileset pdb !! fst ptr) as [tbl |] eqn:Ht; [| reflexivity].
  simpl. apply list_eq. intros i.
  change (map ?f ?x) with (f <$> x). rewrite !list_lookup_fmap.
  destruct (Nat.eq_dec i (fst ptr)) as [-> | Hne].
  - rewrite list_lookup_insert_eq by (eapply lookup_lt_Some; exact Ht).
    rewrite Ht. simpl. rewrite length_insert. reflexivity.
  - rewrite list_lookup_insert_ne by congruence. reflexivity.
Qed.

Lemma store_bytes (pdb : patterndb') (ptr : nat * nat) (byte : Z) :
  (0 <= byte < 256)%Z -> pdb_bytes pdb -> pdb_bytes (store' pdb ptr byte).
Proof.
  unfold pdb_bytes, PDB.store. intros Hb Hall.
  destruct (PDB.tables tileset pdb !! fst ptr) as [tbl |] eqn:Ht; [| exact Hall].
  simpl. apply Forall_insert; [exact Hall |].
  apply Forall_insert; [| exact Hb].
  rewrite Forall_forall in Hall. apply Hall.
  eapply list_elem_of_lookup_2. exact Ht.
Qed.

(** X3.  [pdb_update] and [pdb_conditional_update], whatever [unsigned]
    values they are given, keep every entry of the tables a byte and
    keep the lengths of the tables; [pdb_lookup] then returns a byte. *)
Theorem pdb_updates_keep_bytes (pdb : patterndb') (idx : PDB.index)
    (expected desired : Z) :
  pdb_bytes pdb ->
  (forall pdb1, pdb_update' pdb idx desired = Some pdb1 ->
     pdb_bytes pdb1 /\ pdb_shape pdb1 = pdb_shape pdb)
  /\ (forall r pdb1,
        pdb_conditional_update' pdb idx expected desired = Some (r, pdb1) ->
        pdb_bytes pdb1 /\ pdb_shape pdb1 = pdb_shape pdb /\ (r = 0 \/ r = 1)%Z)
  /\ (forall b, pdb_lookup' pdb idx = Some b -> (0 <= b < 256)%Z).
Proof.
  intros Hall.
  assert (Hu : forall x, (0 <= PDB.uchar x < 256)%Z)
    by (intros x; unfold PDB.uchar; apply Z.mod_pos_bound; lia).
  split; [| split].
  - unfold PDB.pdb_update. intros pdb1 H.
    destruct (pdb_entry_pointer' pdb idx) as [ptr |]; [| discriminate].
    destruct (load' pdb ptr); [| discriminate]. injection H as <-.
    split; [apply store_bytes; [apply Hu | exact Hall] | apply store_shape].
  - unfold PDB.pdb_conditional_update. intros r pdb1 H.
    destruct (pdb_entry_pointer' pdb idx) as [ptr |]; [| discriminate].
    destruct (load' pdb ptr) as [cur |]; [| discriminate].
    destruct (cur =? PDB.uchar expected)%Z; injection H as <- <-.
    + split; [apply store_bytes; [apply Hu | exact Hall] |].
      split; [apply store_shape | right; reflexivity].
    + split; [exact Hall | split; [reflexivity | left; reflexivity]].
  - unfold PDB.pdb_lookup, PDB.load. intros b H.
    destruct (pdb_entry_pointer' pdb idx) as [ptr |]; [| discriminate].
    destruct (PDB.tables tileset pdb !! fst ptr) as [tbl |] eqn:Ht; [| discriminate].
    unfold pdb_bytes in Hall. rewrite Forall_forall in Hall.
    specialize (Hall tbl (list_elem_of_lookup_2 _ _ _ Ht)).
    rewrite Forall_forall in Hall. apply Hall.
    eapply list_elem_of_lookup_2. exact H.
Qed.

Lemma store_same (pdb : patterndb') (ptr : nat * nat) (cur : Z) :
  load' pdb ptr = Some cur -> store' pdb ptr cur = pdb.
Proof.
  unfold PDB.load, PDB.store. intros H.
  destruct (PDB.tables tileset pdb !! fst ptr) as [tbl |] eqn:Ht; [| reflexivity].
  rewrite (list_insert_id tbl) by exact H.
  rewrite list_insert_id by exact Ht. destruct pdb; reflexivity.
Qed.

(** X4.  A desired value that narrows to [UNREACHED] does not fill an
    unreached entry: each such call returns 1 and leaves the table as
    it is, so the next one succeeds again. *)
Theorem pdb_conditional_update_unreached_again (pdb : patterndb') (idx : PDB.index)
    (desired : Z) (n : nat) :
  pdb_lookup' pdb idx = Some PDB.UNREACHED ->
  (desired mod 256 = PDB.UNREACHED)%Z ->
  pdb_conditional_update' pdb idx PDB.UNREACHED desired = Some (1%Z, pdb)
  /\ fill_calls' pdb idx (repeat desired n) = Some (repeat 1%Z n, pdb).
Proof.
  unfold PDB.pdb_lookup. intros Hl Hd.
  destruct (pdb_entry_pointer' pdb idx) as [ptr |] eqn:Hp; [| discriminate].
  assert (H1 : pdb_conditional_update' pdb idx PDB.UNREACHED desired = Some (1%Z, pdb)).
  { rewrite (conditional_update_hit tileset tileset_has ZERO_TILE pdb idx ptr)
      by (assumption || exact Hl).
    unfold PDB.uchar. rewrite Hd, store_same by exact Hl. reflexivity. }
  split; [exact H1 |].
  induction n as [| n IH]; [reflexivity |].
  cbn [repeat PDB.fill_calls]. rewrite H1, IH. reflexivity.
Qed.

End PDBMore.

(** ** The coalescer on arbitrary streams *)

Section CoalesceMore.

Variable MOVE_MASK : Z.

Local Abbreviation same := (same_configuration MOVE_MASK).
Local Abbreviation cfg := (configuration MOVE_MASK).

(** X5.  The test of [coalesce] compares [hi] and the bits of [lo] outside
    [MOVE_MASK], whatever [MOVE_MASK] is; it is an equivalence. *)
Theorem same_configuration_equivalence :
  (forall a b, same a b = true
               <-> hi a = hi b
                   /\ Z.land (lo a) (Z.lnot MOVE_MASK) = Z.land (lo b) (Z.lnot MOVE_MASK))
  /\ (forall a, same a a = true)
  /\ (forall a b, same a b = same b a)
  /\ (forall a b c, same a b = true -> same b c = true -> same a c = true).
Proof.
  split; [| split; [| split]].
  - intros a b. rewrite same_cfg. unfold configuration.
    split; [intros H; injection H; auto | intros [-> ->]; reflexivity].
  - apply same_refl.
  - intros a b. destruct (same a b) eqn:E1, (same b a) eqn:E2; try reflexivity.
    + apply same_cfg in E1. apply same_cfg_false in E2. congruence.
    + apply same_cfg in E2. apply same_cfg_false in E1. congruence.
  - intros a b c H1 H2. apply same_cfg in H1, H2. apply same_cfg. congruence.
Qed.

Lemma coalesce_from_length (rest : list compact_puzzle) :
  forall a, length (coalesce_from MOVE_MASK a rest) <= S (length rest).
Proof.
  induction rest as [| b rest IH]; intros a; simpl; [lia |].
  destruct (same a b); simpl.
  - specialize (IH (merge a b)). lia.
  - specialize (IH b). lia.
Qed.

Lemma coalesce_from_covered (rest : list compact_puzzle) :
  forall a x, In x (a :: rest) ->
    exists y, In y (coalesce_from MOVE_MASK a rest) /\ same x y = true.
Proof.
  induction rest as [| b rest IH]; intros a x Hx.
  - destruct Hx as [<- | []]. exists a. split; [left; reflexivity | apply same_refl].
  - simpl. destruct (same a b) eqn:Hab.
    + assert (Hm : cfg (merge a b) = cfg a) by (apply cfg_merge; exact Hab).
      destruct Hx as [<- | [<- | Hx]].
      * destruct (IH (merge a b) (merge a b) (or_introl eq_refl)) as (y & Hy & Hs).
        exists y. split; [exact Hy |]. rewrite <- Hs.
        apply same_of_cfg; [symmetry; exact Hm | reflexivity].
      * destruct (IH (merge a b) (merge a b) (or_introl eq_refl)) as (y & Hy & Hs).
        exists y. split; [exact Hy |]. rewrite <- Hs.
        apply same_of_cfg; [| reflexivity]. apply same_cfg in Hab. congruence.
      * apply IH. right. exact Hx.
    + destruct Hx as [<- | Hx].
      * exists a. split; [left; reflexivity | apply same_refl].
      * destruct (IH b x Hx) as (y & Hy & Hs). exists y. split; [right; exact Hy | exact Hs].
Qed.

Lemma neighbours_differ_cons (a b : compact_puzzle) (l : list compact_puzzle) :
  same a b = false -> neighbours_differ MOVE_MASK (b :: l) ->
  neighbours_differ MOVE_MASK (a :: b :: l).
Proof.
  intros Hab H l1 x y l2 El.
  destruct l1 as [| m l1]; simpl in El.
  - injection El as <- <- _. exact Hab.
  - injection El as _ El. apply (H l1 x y l2). exact El.
Qed.

Lemma neighbours_differ_tail (a : compact_puzzle) (l : list compact_puzzle) :
  neighbours_differ MOVE_MASK (a :: l) -> neighbours_differ MOVE_MASK l.
Proof.
  intros H l1 x y l2 El. apply (H (a :: l1) x y l2). rewrite El. reflexivity.
Qed.

Lemma coalesce_from_identity (rest : list compact_puzzle) :
  forall a, neighbours_differ MOVE_MASK (a :: rest) ->
    coalesce_from MOVE_MASK a rest = a :: rest.
Proof.
  induction rest as [| b rest IH]; intros a H; [reflexivity |].
  simpl. rewrite (H [] a b rest eq_refl). f_equal.
  apply IH. eapply neighbours_differ_tail. exact H.
Qed.

Lemma coalesce_from_fixed_differ (ys : list compact_puzzle) :
  forall y, coalesce_from MOVE_MASK y ys = y :: ys ->
    neighbours_differ MOVE_MASK (y :: ys).
Proof.
  induction ys as [| b ys IH]; intros y H.
  - intros l1 x z l2 El. destruct l1 as [| ? [| ? ?]]; discriminate.
  - simpl in H. destruct (same y b) eqn:Hyb.
    + pose proof (coalesce_from_length ys (merge y b)) as Hlen.
      rewrite H in Hlen. simpl in Hlen. lia.
    + injection H as H. apply neighbours_differ_cons; [exact Hyb | apply IH; exact H].
Qed.

Lemma neighbours_differb_sound (l : list compact_puzzle) :
  neighbours_differb MOVE_MASK l = true -> neighbours_differ MOVE_MASK l.
Proof.
  induction l as [| a [| b l] IH]; intros H.
  - intros l1 x y l2 El. destruct l1; discriminate.
  - intros l1 x y l2 El. destruct l1 as [| ? [| ? ?]]; discriminate.
  - cbn [neighbours_differb] in H. apply andb_true_iff in H as [Hab Hl].
    apply neighbours_differ_cons; [| apply IH; exact Hl].
    destruct (same a b); [discriminate | reflexivity].
Qed.

(** X6.  On every input, sorted or not, [coalesce] writes no more records
    than it reads; each record written has the configuration of a
    record read and each record read that of a record written; and no
    two neighbours of the output have the same configuration. *)
Theorem coalesce_conservative (input : list compact_puzzle) :
  exists out,
    coalesce_out MOVE_MASK input = Some out
    /\ length out <= length input
    /\ (forall y, In y out -> exists x, In x input /\ same x y = true)
    /\ (forall x, In x input -> exists y, In y out /\ same x y = true)
    /\ neighbours_differ MOVE_MASK out.
Proof.
  exists (coalesce_spec MOVE_MASK input). rewrite coalesce_out_spec.
  split; [reflexivity |]. destruct input as [| a rest]; simpl.
  - split; [lia |]. split; [intros y [] |]. split; [intros x [] |].
    intros l1 x y l2 El. destruct l1; discriminate.
  - split; [apply coalesce_from_length |].
    split; [apply coalesce_from_origin |].
    split; [apply coalesce_from_covered |].
    destruct (coalesce_from_fixed MOVE_MASK rest a) as (y & ys & E & _ & Hfix).
    rewrite E. apply coalesce_from_fixed_differ. exact Hfix.
Qed.

(** X7.  [coalesce] merges neighbours only: it copies its input exactly
    when no two neighbours of the input have the same configuration. *)
Theorem coalesce_identity_iff (input : list compact_puzzle) :
  coalesce_out MOVE_MASK input = Some input <-> neighbours_differ MOVE_MASK input.
Proof.
  rewrite coalesce_out_spec. split.
  - intros H. injection H as H. destruct input as [| a rest].
    + intros l1 x y l2 El. destruct l1; discriminate.
    + apply coalesce_from_fixed_differ. exact H.
  - intros H. f_equal. destruct input as [| a rest]; [reflexivity |].
    apply coalesce_from_identity. exact H.
Qed.

Lemma coalesce_spec_app (l1 l2 : list compact_puzzle) :
  (l1 = [] \/ l2 = [] \/ same (List.last l1 (hd (CP 0 0) l2)) (hd (CP 0 0) l2) = false) ->
  coalesce_spec MOVE_MASK (l1 ++ l2)
  = coalesce_spec MOVE_MASK l1 ++ coalesce_spec MOVE_MASK l2.
Proof.
  intros [-> | [-> | H]].
  - reflexivity.
  - rewrite !app_nil_r. reflexivity.
  - destruct l1 as [| a0 pre]; [reflexivity |].
    destruct l2 as [| b rest]; [rewrite !app_nil_r; reflexivity |].
    simpl hd in H. rewrite last_cons in H.
    change ((a0 :: pre) ++ b :: rest) with (a0 :: (pre ++ b :: rest)).
    unfold coalesce_spec. apply coalesce_from_app. exact H.
Qed.

(** X8.  Coalescing two streams one after the other into the same output
    gives what coalescing their concatenation gives, when the last
    record of the first and the first record of the second differ in
    configuration (or one of the streams is empty). *)
Theorem coalesce_concatenation (l1 l2 : list compact_puzzle) :
  (l1 = [] \/ l2 = [] \/ same (List.last l1 (hd (CP 0 0) l2)) (hd (CP 0 0) l2) = false) ->
  exists o1 o2,
    coalesce_out MOVE_MASK l1 = Some o1
    /\ coalesce_out MOVE_MASK l2 = Some o2
    /\ coalesce_out MOVE_MASK (l1 ++ l2) = Some (o1 ++ o2)
    /\ returns (coalesce MOVE_MASK (FILE_after o1) (FILE_of l2))
               (FILE_after (o1 ++ o2), FILE_after l2).
Proof.
  intros H. exists (coalesce_spec MOVE_MASK l1), (coalesce_spec MOVE_MASK l2).
  rewrite !coalesce_out_spec, coalesce_spec_app by exact H.
  repeat split. apply returns_coalesce.
Qed.

End CoalesceMore.

(** ** One expansion, one pass, one layer *)

Lemma for_each_skip {St : Type} (body : nat -> St -> M St) (locs : list nat) :
  (forall loc s e, In loc locs -> body loc s e = Ret s e) ->
  forall s e, for_each locs body s e = Ret s e.
Proof.
  induction locs as [| loc locs IH]; intros H s e; [reflexivity |].
  cbn [for_each]. rewrite (bind_ret_eq _ _ s e e) by (apply H; left; reflexivity).
  apply IH. intros loc' s' e' Hin. apply H. right. exact Hin.
Qed.

Section SortMore.

Variable MOVE_MASK : Z.
Variable puzzle : Type.
Variable tiles : puzzle -> nat -> nat.
Variable unpack_puzzle : compact_puzzle -> puzzle.
Variable pack_puzzle_masked : puzzle -> nat -> compact_puzzle.
Variable move_mask : compact_puzzle -> Z.
Variable zero_location : puzzle -> nat.
Variable move_count : nat -> nat.
Variable get_moves : nat -> list nat.
Variable move : puzzle -> nat -> puzzle.

Local Abbreviation digit' := (digit puzzle tiles unpack_puzzle).
Local Abbreviation distribute' := (distribute puzzle tiles unpack_puzzle).
Local Abbreviation rounds' := (rounds puzzle tiles unpack_puzzle).
Local Abbreviation open_moves' :=
  (open_moves puzzle unpack_puzzle move_mask zero_location move_count).
Local Abbreviation expandpuzzle' :=
  (expandpuzzle puzzle tiles unpack_puzzle pack_puzzle_masked move_mask
     zero_location move_count get_moves move).
Local Abbreviation expround_sort' :=
  (expround_sort puzzle tiles unpack_puzzle pack_puzzle_masked move_mask
     zero_location move_count get_moves move).
Local Abbreviation expround' :=
  (expround MOVE_MASK puzzle tiles unpack_puzzle pack_puzzle_masked move_mask
     zero_location move_count get_moves move).
Local Abbreviation expround_out' :=
  (expround_out MOVE_MASK puzzle tiles unpack_puzzle pack_puzzle_masked move_mask
     zero_location move_count get_moves move).

(** A record without a child: every move of its row of the move
    table is masked, and the row is short enough for the shifts. *)
Local Abbreviation childless :=
  (fun cp => move_count (zero_location (unpack_puzzle cp)) <= 31
             /\ open_moves' cp = []).


(** X19.  [distribute] moves no record.  Line 163 hands
    [outfiles + p.tiles[t]], the address of a slot of the array of
    buckets, to [putpuzzle] as its stream.  When no library call fails
    and the stream has a record ahead of its position, the call is
    undefined at the first record; when [distribute] returns, the
    stream was at its end, and the buckets are the streams they
    were. *)
Theorem distribute_moves_no_record (outfiles : list FILE) (infile : FILE) (t : nat)
    (e : env) :
  (faults e = [] -> unread infile <> [] ->
   distribute' outfiles infile t e = Undefined)
  /\ (forall fs infile' e',
        distribute' outfiles infile t e = Ret (fs, infile') e' ->
        fs = outfiles /\ unread infile = [] /\ infile' = infile).
Proof.
  split.
  - intros He Hu. unfold distribute, fuel_for.
    destruct infile as [b [| cp l] fe]; [contradiction |].
    cbn [unread while_getpuzzle length].
    unfold getpuzzle, fread, bind, syscall, ret. rewrite He. reflexivity.
  - intros fs infile' e' H.
    pose proof (distribute_Ret puzzle tiles unpack_puzzle _ _ _ _ _ _ _ H) as [Hfs Hu].
    split; [exact Hfs |]. split; [exact Hu |].
    unfold distribute, fuel_for in H. rewrite Hu in H.
    cbn [length while_getpuzzle] in H.
    apply bind_Ret_inv in H as ([r f1] & e1 & Hget & H).
    apply getpuzzle_Ret in Hget. destruct r as [cp |].
    + rewrite Hu in Hget. discriminate.
    + destruct Hget as [_ ->]. injection H as _ <- _. reflexivity.
Qed.

(** X11.  A record whose mask covers every move of its row of the move
    table has no child: [expandpuzzle] makes no library call and
    leaves the buckets as they are, in every environment. *)
Theorem expandpuzzle_all_masked (outfiles : list FILE) (cp : compact_puzzle) (e : env) :
  move_count (zero_location (unpack_puzzle cp)) <= 31 ->
  open_moves' cp = [] ->
  expandpuzzle' outfiles cp e = Ret outfiles e.
Proof.
  intros Hcount Hopen. unfold expandpuzzle.
  rewrite (bind_ret_eq _ _ (unpack_puzzle cp, outfiles) e e); [reflexivity |].
  apply for_each_skip. intros i [p fs] e' Hi. unfold expand_step.
  replace (31 <=? i) with false
    by (symmetry; apply Nat.leb_gt; apply in_seq in Hi; lia).
  change (Z.land (move_mask cp) (Z.shiftl 1 (Z.of_nat i)) =? 0)%Z
    with (unmasked (move_mask cp) i).
  destruct (unmasked (move_mask cp) i) eqn:Hu; [| reflexivity].
  assert (Hin : In i (open_moves' cp))
    by (apply List.filter_In; split; assumption).
  rewrite Hopen in Hin. destruct Hin.
Qed.

Lemma returns_expandpuzzle_childless (fs : list FILE) (cp : compact_puzzle) :
  childless cp -> returns (expandpuzzle' fs cp) fs.
Proof.
  intros [Hcount Hopen] e He. exists e. split; [| exact He].
  destruct (expandpuzzle_outcome puzzle tiles unpack_puzzle pack_puzzle_masked
              move_mask zero_location move_count get_moves move fs cp e)
    as [[Hr _] | Hu]; [exact Hr |].
  exfalso. revert Hu. unfold expandpuzzle.
  rewrite (bind_ret_eq _ _ (unpack_puzzle cp, fs) e e); [discriminate |].
  apply for_each_skip. intros i [p fs0] e' Hi. unfold expand_step.
  replace (31 <=? i) with false
    by (symmetry; apply Nat.leb_gt; apply in_seq in Hi; lia).
  change (Z.land (move_mask cp) (Z.shiftl 1 (Z.of_nat i)) =? 0)%Z
    with (unmasked (move_mask cp) i).
  destruct (unmasked (move_mask cp) i) eqn:Hm; [| reflexivity].
  assert (Hin : In i (open_moves' cp))
    by (apply List.filter_In; split; assumption).
  rewrite Hopen in Hin. destruct Hin.
Qed.

Lemma returns_expround_sort_childless (layer : list compact_puzzle) (dir : string) :
  Forall childless layer ->
  returns (expround_sort' (FILE_of layer) dir)
          (replicate TILE_COUNT empty_FILE, FILE_after layer).
Proof.
  intros Hall. unfold expround_sort.
  eapply returns_bind; [apply returns_makerdxfiles |].
  eapply returns_bind.
  - pose proof (returns_while_getpuzzle (fun fs : list FILE => fs)
                  (fun cp rdxfiles => expandpuzzle' rdxfiles cp)
                  (fun fs _ => fs) (fun _ => True) layer) as Hw.
    apply (Hw : _ -> forall fuel a b, _); [| unfold fuel_for, FILE_of; simpl; lia | exact I].
    intros cp a Hcp _. split; [| exact I].
    apply returns_expandpuzzle_childless.
    rewrite List.Forall_forall in Hall. apply Hall. exact Hcp.
  - assert (Hfold : forall (l : list compact_puzzle) (a : list FILE),
               fold_left (fun fs _ => fs) l a = a)
      by (induction l as [| x l IHl]; intros a; [reflexivity | apply IHl]).
    rewrite Hfold. cbv beta iota.
    eapply returns_bind; [apply returns_rounds_empty | apply returns_ret].
Qed.

Lemma returns_coalesce_eof (outfile : FILE) (b : list compact_puzzle) :
  returns (coalesce MOVE_MASK outfile (mkFILE b [] false)) (outfile, mkFILE b [] false).
Proof.
  unfold coalesce.
  eapply returns_bind; [apply returns_getpuzzle_nil | apply returns_ret].
Qed.

Lemma returns_coalesce_empty_buckets (outfile : FILE) (dir : string) :
  returns (for_each (seq 0 TILE_COUNT)
             (coalesce_step_loc MOVE_MASK dir (replicate TILE_COUNT empty_FILE))
             outfile)
          outfile.
Proof.
  pose proof (returns_for_each (fun f : FILE => f)
                (coalesce_step_loc MOVE_MASK dir (replicate TILE_COUNT empty_FILE))
                (fun f _ => f) (fun _ => True) (seq 0 TILE_COUNT)) as Hfe.
  assert (Hfold : forall (locs : list nat) (a : FILE),
             fold_left (fun f _ => f) locs a = a)
    by (induction locs as [| x locs IHl]; intros a; [reflexivity | apply IHl]).
  rewrite <- (Hfold (seq 0 TILE_COUNT) outfile) at 2.
  apply Hfe; [| exact I].
  intros loc a Hloc _. split; [| exact I].
  apply in_seq in Hloc. unfold coalesce_step_loc.
  rewrite lookup_replicate_2 by lia.
  eapply returns_bind; [apply (returns_coalesce_eof a []) |].
  eapply returns_bind; [apply returns_fclose |].
  eapply returns_bind; [apply returns_removerdxfile | apply returns_ret].
Qed.

(** X12.  An empty layer has an empty successor: on an input stream
    without records [expround] returns and has appended nothing to
    the output stream, whatever the codec and the move tables. *)
Theorem expround_empty_layer (o : list compact_puzzle) (dir : string) :
  returns (expround' (FILE_of o) (FILE_of []) dir) (FILE_of o, FILE_of [])
  /\ expround_out' [] dir = Some [].
Proof.
  assert (H : forall outfile,
             returns (expround' outfile (FILE_of []) dir) (outfile, FILE_of [])).
  { intros outfile. unfold expround.
    eapply returns_bind;
      [apply (returns_expround_sort_childless [] dir); apply List.Forall_nil |].
    eapply returns_bind; [apply returns_coalesce_empty_buckets | apply returns_ret]. }
  split; [apply H |].
  unfold expround_out.
  destruct (H empty_FILE quiet_env eq_refl) as (e' & Hr & _).
  rewrite Hr. reflexivity.
Qed.

(** X20.  A layer without children.  When every record of the layer
    has all the moves of its row of the move table masked, and no
    library call fails, [expround] reads the layer to its end and
    leaves the output stream as it is: nothing is written for the
    layer, whatever stream the output is. *)
Theorem expround_childless_layer (layer : list compact_puzzle) (outfile : FILE)
    (dir : string) :
  Forall childless layer ->
  returns (expround' outfile (FILE_of layer) dir) (outfile, FILE_after layer)
  /\ expround_out' layer dir = Some [].
Proof.
  intros Hall.
  assert (H : forall f,
             returns (expround' f (FILE_of layer) dir) (f, FILE_after layer)).
  { intros f. unfold expround.
    eapply returns_bind; [apply returns_expround_sort_childless; exact Hall |].
    eapply returns_bind; [apply returns_coalesce_empty_buckets | apply returns_ret]. }
  split; [apply H |].
  unfold expround_out.
  destruct (H empty_FILE quiet_env eq_refl) as (e' & Hr & _).
  rewrite Hr. reflexivity.
Qed.


End SortMore.

(** ** The bucket files of a round *)














Lemma append_inj_l (s x y : string) : (s ++ x = s ++ y)%string -> x = y.
Proof.
  induction s as [| c s IH]; simpl; intros H; [exact H |].
  injection H as H. apply IH. exact H.
Qed.

Lemma string_length_app (s t : string) :
  String.length (s ++ t) = String.length s + String.length t.
Proof. induction s as [| c s IH]; simpl; [reflexivity | rewrite IH; reflexivity]. Qed.

(** A string that fits is stored whole; of a string whose first part
    fills the buffer, the rest is cut. *)
Lemma substring_all (s : string) :
  forall n, String.length s <= n -> String.substring 0 n s = s.
Proof.
  induction s as [| c s IH]; intros n H; [destruct n; reflexivity |].
  destruct n as [| n]; [simpl in H; lia |].
  simpl. f_equal. apply IH. simpl in H. lia.
Qed.

Lemma substring_append_long (s t : string) :
  forall n, n <= String.length s ->
    String.substring 0 n (s ++ t) = String.substring 0 n s.
Proof.
  induction s as [| c s IH]; intros n H.
  - simpl in H. replace n with 0 by lia. destruct t; reflexivity.
  - destruct n as [| n]; [reflexivity |].
    simpl. f_equal. apply IH. simpl in H. lia.
Qed.

Lemma fmt02_two (n : nat) :
  n < 100 -> exists a b, fmt02 n = String a (String b EmptyString).
Proof.
  intros Hn.
  assert (H : forallb (fun m => Nat.eqb (String.length (fmt02 m)) 2) (seq 0 100) = true)
    by (vm_compute; reflexivity).
  rewrite forallb_forall in H. specialize (H n).
  assert (Hin : In n (seq 0 100)) by (apply in_seq; lia).
  apply H in Hin. apply Nat.eqb_eq in Hin.
  destruct (fmt02 n) as [| a [| b [| c s]]]; try discriminate.
  exists a, b. reflexivity.
Qed.

Lemma fmt02_inj (n m : nat) : n < 100 -> m < 100 -> fmt02 n = fmt02 m -> n = m.
Proof.
  intros Hn Hm E.
  assert (H : forallb (fun a =>
                forallb (fun b => implb (String.eqb (fmt02 a) (fmt02 b)) (Nat.eqb a b))
                  (seq 0 100)) (seq 0 100) = true)
    by (vm_compute; reflexivity).
  rewrite forallb_forall in H. specialize (H n).
  assert (Hin : In n (seq 0 100)) by (apply in_seq; lia).
  apply H in Hin. rewrite forallb_forall in Hin. specialize (Hin m).
  assert (Him : In m (seq 0 100)) by (apply in_seq; lia).
  apply Hin in Him. rewrite E, String.eqb_refl in Him. simpl in Him.
  apply Nat.eqb_eq. exact Him.
Qed.

Lemma rdxpath_short (dir : string) (round loc : nat) :
  round < 100 -> loc < 100 -> String.length dir + 10 < PATH_MAX ->
  rdxpath dir round loc
  = (dir ++ "-" ++ fmt02 round ++ "-" ++ fmt02 loc ++ ".rdx")%string.
Proof.
  intros Hr Hl Hdir. unfold rdxpath, snprintf. apply substring_all.
  destruct (fmt02_two round Hr) as (a & b & ->).
  destruct (fmt02_two loc Hl) as (c & d & ->).
  rewrite string_length_app. cbn [String.length String.append Nat.add].
  revert Hdir. generalize PATH_MAX (String.length dir). intros n m Hdir. lia.
Qed.

Lemma rdxpath_long (dir : string) (round loc : nat) :
  PATH_MAX <= String.length dir + 1 ->
  rdxpath dir round loc = snprintf PATH_MAX dir.
Proof.
  intros Hdir. unfold rdxpath, snprintf. apply substring_append_long. lia.
Qed.

Lemma rdxpath_parts (dir : string) (round1 loc1 round2 loc2 : nat) :
  round1 < 100 -> loc1 < 100 -> round2 < 100 -> loc2 < 100 ->
  String.length dir + 10 < PATH_MAX ->
  rdxpath dir round1 loc1 = rdxpath dir round2 loc2 ->
  fmt02 round1 = fmt02 round2 /\ fmt02 loc1 = fmt02 loc2.
Proof.
  intros Hr1 Hl1 Hr2 Hl2 Hdir E.
  rewrite !rdxpath_short in E by assumption.
  apply append_inj_l in E. simpl in E. injection E as E.
  destruct (fmt02_two round1 Hr1) as (a1 & b1 & Er1).
  destruct (fmt02_two round2 Hr2) as (a2 & b2 & Er2).
  destruct (fmt02_two loc1 Hl1) as (c1 & d1 & El1).
  destruct (fmt02_two loc2 Hl2) as (c2 & d2 & El2).
  rewrite Er1, Er2, El1, El2 in *. simpl in E.
  injection E as Ea Eb Ec Ed. subst a2 b2 c2 d2. split; reflexivity.
Qed.

(** X15.  The names of the bucket files.  For rounds and locations of
    at most two digits: when the path fits the buffer of [PATH_MAX]
    characters, two paths in one directory are equal only for the
    same round and the same location; when the directory name alone
    fills the buffer, [snprintf] cuts the round and the location off
    and every bucket file has the same path. *)
Theorem rdxpath_injective (dir : string) (round1 loc1 round2 loc2 : nat) :
  round1 < 100 -> loc1 < 100 -> round2 < 100 -> loc2 < 100 ->
  (String.length dir + 10 < PATH_MAX ->
   (rdxpath dir round1 loc1 = rdxpath dir round2 loc2
    <-> round1 = round2 /\ loc1 = loc2))
  /\ (PATH_MAX <= String.length dir + 1 ->
      rdxpath dir round1 loc1 = rdxpath dir round2 loc2).
Proof.
  intros Hr1 Hl1 Hr2 Hl2. split.
  - intros Hdir. split.
    + intros E.
      destruct (rdxpath_parts dir round1 loc1 round2 loc2) as [Er El];
        try assumption.
      split; apply fmt02_inj; assumption.
    + intros [-> ->]. reflexivity.
  - intros Hdir. rewrite !rdxpath_long by exact Hdir. reflexivity.
Qed.


Section TraceFacts.

Variable MOVE_MASK : Z.
Variable puzzle : Type.
Variable tiles : puzzle -> nat -> nat.
Variable unpack_puzzle : compact_puzzle -> puzzle.
Variable pack_puzzle_masked : puzzle -> nat -> compact_puzzle.
Variable move_mask : compact_puzzle -> Z.
Variable zero_location : puzzle -> nat.
Variable move_count : nat -> nat.
Variable get_moves : nat -> list nat.
Variable move : puzzle -> nat -> puzzle.

Local Abbreviation distribute' := (distribute puzzle tiles unpack_puzzle).
Local Abbreviation drain_step' := (drain_step puzzle tiles unpack_puzzle).
Local Abbreviation rounds' := (rounds puzzle tiles unpack_puzzle).
Local Abbreviation coalesce' := (coalesce MOVE_MASK).
Local Abbreviation coalesce_step_loc' := (coalesce_step_loc MOVE_MASK).
Local Abbreviation expandpuzzle' :=
  (expandpuzzle puzzle tiles unpack_puzzle pack_puzzle_masked move_mask
     zero_location move_count get_moves move).
Local Abbreviation expround_sort' :=
  (expround_sort puzzle tiles unpack_puzzle pack_puzzle_masked move_mask
     zero_location move_count get_moves move).
Local Abbreviation expround' :=
  (expround MOVE_MASK puzzle tiles unpack_puzzle pack_puzzle_masked move_mask
     zero_location move_count get_moves move).







End TraceFacts.

(** ** The driver without a limit, and without a sample file *)

Section DriverMore.

Variable cps_round : list compact_puzzle -> list compact_puzzle -> list compact_puzzle.
Variable do_sampling : string -> list compact_puzzle -> Z -> Z -> list compact_puzzle.
Variable solved_cp : compact_puzzle.
Variable atoi : string -> Z.
Variable strtoull : string -> Z.

Local Abbreviation main' := (main cps_round do_sampling solved_cp atoi strtoull).
Local Abbreviation option_loop' := (option_loop atoi strtoull).
Local Abbreviation option_step' := (option_step atoi strtoull).
Local Abbreviation layer_loop' := (layer_loop cps_round do_sampling).
Local Abbreviation parsed' := (parsed atoi strtoull).

Lemma layer_loop_at_int_max (opts : options) (fuel : nat) :
  forall i cps e,
    limit opts = INT_MAX -> (i <= INT_MAX)%Z ->
    layer_loop' fuel opts i cps e
    = if (Z.of_nat fuel <=? INT_MAX - i)%Z then NoFuel else Undefined.
Proof.
  induction fuel as [| fuel IH]; intros i cps e Hlimit Hi.
  - replace (Z.of_nat 0 <=? INT_MAX - i)%Z with true
      by (symmetry; apply Z.leb_le; lia).
    reflexivity.
  - cbn [layer_loop]. rewrite Hlimit.
    replace (i <=? INT_MAX)%Z with true by (symmetry; apply Z.leb_le; exact Hi).
    unfold bind, printf. destruct (Z.eqb_spec i INT_MAX) as [E | E].
    + replace (Z.of_nat (S fuel) <=? INT_MAX - i)%Z with false
        by (symmetry; apply Z.leb_gt; lia).
      reflexivity.
    + rewrite IH by (try assumption; lia).
      replace (Z.of_nat (S fuel) <=? INT_MAX - i)%Z
        with (Z.of_nat fuel <=? INT_MAX - (i + 1))%Z; [reflexivity |].
      destruct (Z.leb_spec (Z.of_nat fuel) (INT_MAX - (i + 1)));
        symmetry; [apply Z.leb_le | apply Z.leb_gt]; lia.
Qed.

(** X17.  Without a limit on the command line [main] does not return.  The
    limit is then [INT_MAX], the test [i <= limit] holds for every
    [int], and the loop is still running after any number of layers
    below [INT_MAX]; after layer [INT_MAX] the increment of [i]
    overflows, which is undefined.  No status is ever returned. *)
Theorem main_default_limit_never_returns (fuel : nat) (argv0 : string)
    (got : list (ascii * string)) (operands : list string) (e : env) :
  well_formed_command got operands = true ->
  limit (parsed' got) = INT_MAX ->
  ((Z.of_nat fuel < INT_MAX)%Z -> main' fuel argv0 got operands e = NoFuel)
  /\ ((INT_MAX <= Z.of_nat fuel)%Z -> main' fuel argv0 got operands e = Undefined)
  /\ forall status e', main' fuel argv0 got operands e <> Ret status e'.
Proof.
  intros Hwf Hlimit. unfold well_formed_command in Hwf.
  apply andb_true_iff in Hwf as [Hgot Hops].
  assert (Hmain : main' fuel argv0 got operands e
                  = if (Z.of_nat fuel <=? INT_MAX - 1)%Z then NoFuel else Undefined).
  { unfold main, bind.
    rewrite (option_loop_known atoi strtoull) by exact Hgot. rewrite Hops.
    fold (parsed' got). unfold ret, printf.
    rewrite layer_loop_at_int_max by (try exact Hlimit; unfold INT_MAX; lia).
    destruct (Z.of_nat fuel <=? INT_MAX - 1)%Z; reflexivity. }
  rewrite Hmain. split; [| split].
  - intros H. replace (Z.of_nat fuel <=? INT_MAX - 1)%Z with true
      by (symmetry; apply Z.leb_le; lia).
    reflexivity.
  - intros H. replace (Z.of_nat fuel <=? INT_MAX - 1)%Z with false
      by (symmetry; apply Z.leb_gt; lia).
    reflexivity.
  - intros status e'. destruct (Z.of_nat fuel <=? INT_MAX - 1)%Z; discriminate.
Qed.

Variable other_sampling : string -> list compact_puzzle -> Z -> Z -> list compact_puzzle.

Lemma option_loop_no_samplefile (argv0 : string) (got : list (ascii * string)) :
  forall opts e,
    forallb not_samplefile got = true ->
    samplefile opts = None ->
    match option_loop' argv0 got opts e with
    | Ret opts' _ => samplefile opts' = None
    | _ => True
    end.
Proof.
  induction got as [| [c arg] got IH]; intros opts e Hgot Hopts; [exact Hopts |].
  simpl in Hgot. apply andb_true_iff in Hgot as [Hc Hgot].
  unfold not_samplefile in Hc. simpl in Hc. apply negb_true_iff in Hc.
  cbn [option_loop]. unfold bind, option_step. rewrite Hc.
  destruct (Ascii.eqb c "l"); [apply IH; assumption |].
  destruct (Ascii.eqb c "n"); [apply IH; assumption |].
  destruct (Ascii.eqb c "s"); [apply IH; assumption |].
  exact I.
Qed.

Lemma layer_loop_no_samplefile (opts : options) (fuel : nat) :
  forall i cps e,
    samplefile opts = None ->
    layer_loop cps_round do_sampling fuel opts i cps e
    = layer_loop cps_round other_sampling fuel opts i cps e.
Proof.
  induction fuel as [| fuel IH]; intros i cps e Hopts; [reflexivity |].
  cbn [layer_loop]. unfold sample. rewrite Hopts.
  destruct (i <=? limit opts)%Z; [| reflexivity].
  unfold bind, printf. destruct (i =? INT_MAX)%Z; [reflexivity |].
  apply IH. exact Hopts.
Qed.

(** X18.  Without the option [-f] the sampler has no part in the run:
    [main] does the same with any other [do_sampling] in its place. *)
Theorem main_without_samplefile (fuel : nat) (argv0 : string)
    (got : list (ascii * string)) (operands : list string) (e : env) :
  forallb not_samplefile got = true ->
  main cps_round do_sampling solved_cp atoi strtoull fuel argv0 got operands e
  = main cps_round other_sampling solved_cp atoi strtoull fuel argv0 got operands e.
Proof.
  intros Hgot. unfold main, bind.
  pose proof (option_loop_no_samplefile argv0 got default_options e Hgot eq_refl) as Hopts.
  destruct (option_loop' argv0 got default_options e) as [opts e1 | | |];
    try reflexivity.
  destruct (Nat.eqb (length operands) 1); [| reflexivity].
  unfold ret, sample. rewrite Hopts. unfold printf.
  rewrite layer_loop_no_samplefile by exact Hopts. reflexivity.
Qed.

End DriverMore.

(** ** The further facts on the 5x5 board *)

Lemma pdb_update_lookup_witness :
  PDB.pdb_lookup Grid5.tileset Grid5.tileset_has Grid5.ZERO_TILE
    (PDB.mkPatterndb Grid5.tileset (PDB.aux Grid5.tileset Grid5.cleared_pdb)
       [[255; 255; 44; 255]%Z])
    (PDB.mkIndex 0 2 0)
  = Some (300 mod 256)%Z.
Proof.
  apply (pdb_update_lookup Grid5.tileset Grid5.tileset_has Grid5.ZERO_TILE
           Grid5.cleared_pdb _ (PDB.mkIndex 0 2 0) 300%Z).
  vm_compute. reflexivity.
Defined.

Lemma pdb_entry_pointer_injective_witness :
  PDB.pdb_entry_pointer Grid5.tileset Grid5.tileset_has Grid5.ZERO_TILE
    Grid5.blank_pdb (PDB.mkIndex 0 0 1)
  <> PDB.pdb_entry_pointer Grid5.tileset Grid5.tileset_has Grid5.ZERO_TILE
       Grid5.blank_pdb (PDB.mkIndex 0 1 0)
  /\ forall dist,
       exists pdb1,
         PDB.pdb_update Grid5.tileset Grid5.tileset_has Grid5.ZERO_TILE
           Grid5.blank_pdb (PDB.mkIndex 0 0 1) dist = Some pdb1
         /\ PDB.pdb_lookup Grid5.tileset Grid5.tileset_has Grid5.ZERO_TILE pdb1
              (PDB.mkIndex 0 0 1) = Some (dist mod 256)%Z
         /\ PDB.pdb_lookup Grid5.tileset Grid5.tileset_has Grid5.ZERO_TILE pdb1
              (PDB.mkIndex 0 1 0) = Some 255%Z.
Proof.
  apply (pdb_entry_pointer_injective Grid5.tileset Grid5.tileset_has Grid5.ZERO_TILE
           Grid5.blank_pdb (PDB.mkIndex 0 0 1) (PDB.mkIndex 0 1 0)
           (PDB.mkIndexTable 2) (PDB.mkIndexTable 2) 255%Z 255%Z);
    try reflexivity; try (simpl; lia); discriminate.
Defined.

Lemma pdb_updates_keep_bytes_witness :
  pdb_bytes (PDB.mkPatterndb Grid5.tileset (PDB.aux Grid5.tileset Grid5.cleared_pdb)
               [[255; 255; 44; 255]%Z])
  /\ pdb_shape (PDB.mkPatterndb Grid5.tileset (PDB.aux Grid5.tileset Grid5.cleared_pdb)
                  [[255; 255; 44; 255]%Z])
     = pdb_shape Grid5.cleared_pdb.
Proof.
  refine (proj1 (pdb_updates_keep_bytes Grid5.tileset Grid5.tileset_has Grid5.ZERO_TILE
                   Grid5.cleared_pdb (PDB.mkIndex 0 2 0) 255%Z 300%Z _) _ _).
  - unfold pdb_bytes. simpl.
    apply List.Forall_cons; [| apply List.Forall_nil].
    repeat (apply List.Forall_cons; [lia |]). apply List.Forall_nil.
  - vm_compute. reflexivity.
Defined.

Lemma pdb_conditional_update_unreached_again_witness :
  Grid5.fill_calls Grid5.cleared_pdb (PDB.mkIndex 0 2 0) (repeat 511%Z 3)
  = Some (repeat 1%Z 3, Grid5.cleared_pdb).
Proof.
  apply (pdb_conditional_update_unreached_again Grid5.tileset Grid5.tileset_has
           Grid5.ZERO_TILE Grid5.cleared_pdb (PDB.mkIndex 0 2 0) 511%Z 3);
    vm_compute; reflexivity.
Defined.

Lemma coalesce_identity_iff_witness :
  coalesce_out Grid5.MOVE_MASK [Grid5.centre_cp; Grid5.child_a; Grid5.swapped_cp]
  = Some [Grid5.centre_cp; Grid5.child_a; Grid5.swapped_cp].
Proof.
  apply (proj2 (coalesce_identity_iff Grid5.MOVE_MASK
                  [Grid5.centre_cp; Grid5.child_a; Grid5.swapped_cp])).
  apply neighbours_differb_sound. vm_compute. reflexivity.
Defined.

Lemma coalesce_concatenation_witness :
  exists o1 o2,
    coalesce_out Grid5.MOVE_MASK [Grid5.child_a; Grid5.child_b] = Some o1
    /\ coalesce_out Grid5.MOVE_MASK [Grid5.swapped_cp; Grid5.swapped_cp] = Some o2
    /\ coalesce_out Grid5.MOVE_MASK
         ([Grid5.child_a; Grid5.child_b] ++ [Grid5.swapped_cp; Grid5.swapped_cp])
       = Some (o1 ++ o2)
    /\ returns (coalesce Grid5.MOVE_MASK (FILE_after o1)
                  (FILE_of [Grid5.swapped_cp; Grid5.swapped_cp]))
               (FILE_after (o1 ++ o2), FILE_after [Grid5.swapped_cp; Grid5.swapped_cp]).
Proof.
  apply (coalesce_concatenation Grid5.MOVE_MASK
           [Grid5.child_a; Grid5.child_b] [Grid5.swapped_cp; Grid5.swapped_cp]).
  right. right. vm_compute. reflexivity.
Defined.


Lemma expandpuzzle_all_masked_witness :
  Grid5.expandpuzzle (files_of (replicate TILE_COUNT []))
    (CP (Z.lor (lo Grid5.solved_cp) 3) (hi Grid5.solved_cp)) quiet_env
  = Ret (files_of (replicate TILE_COUNT [])) quiet_env.
Proof.
  apply (expandpuzzle_all_masked Grid5.puzzle Grid5.tiles Grid5.unpack_puzzle
           Grid5.pack_puzzle_masked Grid5.move_mask Grid5.zero_location
           Grid5.move_count Grid5.get_moves Grid5.move).
  - vm_compute. lia.
  - vm_compute. reflexivity.
Defined.

Lemma distribute_moves_no_record_witness :
  distribute Grid5.puzzle Grid5.tiles Grid5.unpack_puzzle
    (replicate TILE_COUNT empty_FILE) (FILE_of [Grid5.solved_cp; Grid5.swapped_cp]) 22
    quiet_env
  = Undefined.
Proof.
  apply (proj1 (distribute_moves_no_record Grid5.puzzle Grid5.tiles Grid5.unpack_puzzle
                  (replicate TILE_COUNT empty_FILE)
                  (FILE_of [Grid5.solved_cp; Grid5.swapped_cp]) 22 quiet_env)).
  - reflexivity.
  - discriminate.
Defined.

Lemma expround_childless_layer_witness :
  returns (expround Grid5.MOVE_MASK Grid5.puzzle Grid5.tiles Grid5.unpack_puzzle
             Grid5.pack_puzzle_masked Grid5.move_mask Grid5.zero_location
             Grid5.move_count Grid5.get_moves Grid5.move
             (FILE_after [Grid5.centre_cp])
             (FILE_of [Grid5.masked_cp; Grid5.masked_cp]) "tmp")
          (FILE_after [Grid5.centre_cp], FILE_after [Grid5.masked_cp; Grid5.masked_cp])
  /\ Grid5.expround_out [Grid5.masked_cp; Grid5.masked_cp] "tmp" = Some [].
Proof.
  apply (expround_childless_layer Grid5.MOVE_MASK Grid5.puzzle Grid5.tiles
           Grid5.unpack_puzzle Grid5.pack_puzzle_masked Grid5.move_mask
           Grid5.zero_location Grid5.move_count Grid5.get_moves Grid5.move
           [Grid5.masked_cp; Grid5.masked_cp] (FILE_after [Grid5.centre_cp]) "tmp").
  repeat (apply List.Forall_cons; [split; [vm_compute; lia | vm_compute; reflexivity] |]).
  apply List.Forall_nil.
Defined.

Lemma rdxpath_injective_witness :
  rdxpath "tmp" 23 7 <> rdxpath "tmp" 22 7
  /\ rdxpath Grid5.long_dir 23 7 = rdxpath Grid5.long_dir 22 7.
Proof.
  destruct (rdxpath_injective "tmp" 23 7 22 7) as [Hshort _]; try lia.
  destruct (rdxpath_injective Grid5.long_dir 23 7 22 7) as [_ Hlong]; try lia.
  split.
  - assert (Hlen : String.length "tmp" + 10 < PATH_MAX)
      by (unfold PATH_MAX; simpl; lia).
    intros E. apply (proj1 (Hshort Hlen)) in E. destruct E as [E _]. discriminate.
  - apply Hlong. apply Nat.leb_le. vm_compute. reflexivity.
Defined.


Lemma main_default_limit_never_returns_witness :
  main Grid5.cps_round Grid5.no_sampling Grid5.solved_cp Grid5.decimal Grid5.decimal
    6 "puzzledistext" [("n"%char, "100")] ["tmp"] quiet_env
  = NoFuel.
Proof.
  refine (proj1 (main_default_limit_never_returns Grid5.cps_round Grid5.no_sampling
                   Grid5.solved_cp Grid5.decimal Grid5.decimal
                   6 "puzzledistext" [("n"%char, "100")] ["tmp"] quiet_env _ _) _).
  - reflexivity.
  - reflexivity.
  - unfold INT_MAX. lia.
Defined.

Lemma main_without_samplefile_witness :
  main Grid5.cps_round Grid5.no_sampling Grid5.solved_cp Grid5.decimal Grid5.decimal
    4 "puzzledistext" [("l"%char, "2")] ["tmp"] quiet_env
  = main Grid5.cps_round (fun _ _ _ _ => []) Grid5.solved_cp Grid5.decimal Grid5.decimal
      4 "puzzledistext" [("l"%char, "2")] ["tmp"] quiet_env.
Proof.
  apply (main_without_samplefile Grid5.cps_round Grid5.no_sampling Grid5.solved_cp
           Grid5.decimal Grid5.decimal (fun _ _ _ _ => [])).
  reflexivity.
Defined.
